(** * Transition probabilities of a crystal-electric-field Hamiltonian

    Shallow embedding of [scripts/transition_probabilities.c] (function
    [get]) and the properties of it that the specification states.

    - Arithmetic.  The C function works on [float] cells and mixes single
      and double precision: [pow] and [sqrt] return [double], the products
      of two [float] operands are [float].  The embedding follows the usual
      arithmetic conversions of C expression by expression, over the
      IEEE 754 operations of the standard library's [SpecFloat]: round to
      nearest even, binary32 for [float], binary64 for [double], every
      operation rounded once to the type of the C expression.
    - Integers.  The [int] variables are indices between [0] and [size];
      no expression of the function leaves that range, so they are [Z]
      without wrap-around.
    - Memory.  The five [float **] arguments are five matrices held in a
      store; an access outside a matrix is undefined behaviour and makes
      the embedding fail.  The arguments are taken not to overlap.
    - Control.  The function is a command over the store, in a state and
      failure monad; the [for] loops are counted loops. *)

From Stdlib Require Import ZArith Bool List Lia.
From Stdlib Require Import Floats.SpecFloat.
From stdpp Require Import base option list.

Local Open Scope Z_scope.

(** ** Arithmetic of the C types *)

Module Ieee.

(** [float] is binary32, [double] is binary64. *)
Abbreviation prec32 := 24 (only parsing).
Abbreviation emax32 := 128 (only parsing).
Abbreviation prec64 := 53 (only parsing).
Abbreviation emax64 := 1024 (only parsing).

Abbreviation float := spec_float (only parsing).
Abbreviation double := spec_float (only parsing).

(** Conversion of an [int] to [float] and to [double]. *)
Definition float_of_int (n : Z) : float :=
  binary_normalize prec32 emax32 n 0 false.
Definition double_of_int (n : Z) : double :=
  binary_normalize prec64 emax64 n 0 false.

(** Promotion of a [float] to [double] (exact) and the rounding of a
    [double] that is stored into a [float]. *)
Definition to_double (x : float) : double :=
  match x with
  | S754_finite s m e => binary_round prec64 emax64 s m e
  | _ => x
  end.
Definition to_float (x : double) : float :=
  match x with
  | S754_finite s m e => binary_round prec32 emax32 s m e
  | _ => x
  end.

Definition fadd : float -> float -> float := SFadd prec32 emax32.
Definition fsub : float -> float -> float := SFsub prec32 emax32.
Definition fmul : float -> float -> float := SFmul prec32 emax32.

Definition dadd : double -> double -> double := SFadd prec64 emax64.
Definition dmul : double -> double -> double := SFmul prec64 emax64.
Definition ddiv : double -> double -> double := SFdiv prec64 emax64.

(** The C library's [sqrt] and [pow].  [sqrt] is the correctly rounded
    IEEE square root; [pow] is only ever called with the exponent 2, and is
    taken to return the square, rounded once. *)
Definition sqrt : double -> double := SFsqrt prec64 emax64.
Definition pow_2 (x : double) : double := dmul x x.

Definition zero : float := S754_zero false.

Definition is_zero (x : spec_float) : bool :=
  match x with S754_zero _ => true | _ => false end.

(** The finite values are the ones that stand for a real number. *)
Definition is_finite (x : spec_float) : bool :=
  match x with S754_zero _ | S754_finite _ _ _ => true | _ => false end.

End Ieee.

Import Ieee.

(** ** Matrices and the store *)

(** A [float **] argument: a list of rows.  A cell is read or written
    through two indices; an index outside the allocated rows or columns
    is undefined behaviour in C, here [None]. *)
Abbreviation matrix := (list (list float)) (only parsing).

Definition index (i : Z) : option nat :=
  if 0 <=? i then Some (Z.to_nat i) else None.

Definition read (m : matrix) (i k : Z) : option float :=
  ni ← index i; nk ← index k; row ← m !! ni; row !! nk.

Definition write (m : matrix) (i k : Z) (v : float) : option matrix :=
  ni ← index i; nk ← index k; row ← m !! ni; _ ← row !! nk;
  Some (<[ni := <[nk := v]> row]> m).

(** The five matrices the function receives.  The arguments are taken to
    point to pairwise disjoint storage, as the caller of the specification
    allocates them. *)
Record state := State {
  j_z : matrix;
  j_plus : matrix;
  j_minus : matrix;
  transition_probability : matrix;
  eigenfunctions : matrix
}.

Inductive name := Jz | Jplus | Jminus | Tp | Ef.

Definition sel (a : name) (s : state) : matrix :=
  match a with
  | Jz => j_z s
  | Jplus => j_plus s
  | Jminus => j_minus s
  | Tp => transition_probability s
  | Ef => eigenfunctions s
  end.

Definition upd (a : name) (m : matrix) (s : state) : state :=
  match a with
  | Jz => State m (j_plus s) (j_minus s) (transition_probability s) (eigenfunctions s)
  | Jplus => State (j_z s) m (j_minus s) (transition_probability s) (eigenfunctions s)
  | Jminus => State (j_z s) (j_plus s) m (transition_probability s) (eigenfunctions s)
  | Tp => State (j_z s) (j_plus s) (j_minus s) m (eigenfunctions s)
  | Ef => State (j_z s) (j_plus s) (j_minus s) (transition_probability s) m
  end.

(** ** Commands: state passing with undefined behaviour as failure *)

Definition Cmd (A : Type) : Type := state -> option (A * state).

Definition ret {A} (a : A) : Cmd A := fun s => Some (a, s).

Definition bind {A B} (m : Cmd A) (k : A -> Cmd B) : Cmd B :=
  fun s => match m s with Some (a, s') => k a s' | None => None end.

Declare Scope cmd_scope.
Delimit Scope cmd_scope with cmd.
Notation "'let*' x ':=' m 'in' k" := (bind m (fun x => k))
  (at level 10, x name, m at level 100, k at level 200) : cmd_scope.
Notation "m ';;' k" := (bind m (fun _ => k))
  (at level 100, k at level 200, right associativity) : cmd_scope.

(** [a[i][k]] as an rvalue and [a[i][k] = v]. *)
Definition load (a : name) (i k : Z) : Cmd float :=
  fun s => match read (sel a s) i k with Some v => Some (v, s) | None => None end.

Definition store (a : name) (i k : Z) (v : float) : Cmd unit :=
  fun s => match write (sel a s) i k v with
           | Some m => Some (tt, upd a m s)
           | None => None
           end.

(** [for (i = lo; i < hi; i++) body], for a body that assigns neither [i]
    nor the bound. *)
Fixpoint for_loop (n : nat) (i : Z) (body : Z -> Cmd unit) : Cmd unit :=
  match n with
  | O => ret tt
  | S n' => bind (body i) (fun _ => for_loop n' (i + 1) body)
  end.

Definition for_ (lo hi : Z) (body : Z -> Cmd unit) : Cmd unit :=
  for_loop (Z.to_nat (hi - lo)) lo body.

(** ** The function [get] *)

Section Get.

Local Open Scope cmd_scope.

Variables (j squared_j : float) (size : Z).

(** [a[i][k] += x] for a [double] operand [x]: the sum is formed in
    [double] and rounded into the [float] cell. *)
Definition add_double (a : name) (i k : Z) (x : double) : Cmd unit :=
  let* old := load a i k in
  store a i k (to_float (dadd (to_double old) x)).

(** [a[i][k] += x] for a [float] operand [x]. *)
Definition add_float (a : name) (i k : Z) (x : float) : Cmd unit :=
  let* old := load a i k in
  store a i k (fadd old x).

(** Lines 9 to 12: one step of the loop over the basis states on the
    diagonal cell of [row]. *)
Definition diagonal_step (row row_j : Z) : Cmd unit :=
  let* e0 := load Ef row_j row in
  add_double Jz row row
    (dmul (pow_2 (to_double e0)) (to_double (fsub (float_of_int row_j) j)));;
  let* e1 := load Ef (row_j + 1) row in
  let* e2 := load Ef row_j row in
  add_double Jplus row row
    (dmul (to_double (fmul e1 e2))
       (sqrt (to_double
          (fsub squared_j
             (fmul (fsub (float_of_int row_j) j)
                   (fadd (fsub (float_of_int row_j) j) (float_of_int 1))))))).

(** Lines 21 to 32: one step of the loop over the basis states on the
    cell ([row], [column]). *)
Definition pair_step (row column row_j : Z) : Cmd unit :=
  let mqn_1 := fsub (float_of_int row_j) j in
  let* e0 := load Ef row_j row in
  let* e1 := load Ef row_j column in
  add_float Jz row column (fmul (fmul e0 e1) mqn_1);;
  let column_j := row_j + 1 in
  let mqn_2 := fsub (float_of_int column_j) j in
  let common_root :=
    to_float (sqrt (to_double (fsub squared_j (fmul mqn_1 mqn_2)))) in
  let* e2 := load Ef column_j row in
  let* e3 := load Ef row_j column in
  add_float Jplus row column (fmul (fmul e2 e3) common_root);;
  let* e4 := load Ef row_j row in
  let* e5 := load Ef column_j column in
  add_float Jminus row column (fmul (fmul e4 e5) common_root).

(** Lines 34 to 36, as an expression of the three cells. *)
Definition probability (z p m : float) : float :=
  to_float
    (ddiv
       (dadd (dadd (pow_2 (to_double (fmul (float_of_int 2) z)))
                   (pow_2 (to_double p)))
             (pow_2 (to_double m)))
       (double_of_int 3)).

(** Lines 17 to 40: the body of the loop over [column]. *)
Definition pair_body (row column : Z) : Cmd unit :=
  let mqn_1 := fsub (float_of_int (size - 1)) j in
  let* e0 := load Ef (size - 1) row in
  let* e1 := load Ef (size - 1) column in
  add_float Jz row column (fmul (fmul e0 e1) mqn_1);;
  for_ 0 (size - 1) (pair_step row column);;
  let* z := load Jz row column in
  let* p := load Jplus row column in
  let* m := load Jminus row column in
  store Tp row column (probability z p m);;
  let* z := load Jz row column in
  store Jz column row z;;
  let* m := load Jminus row column in
  store Jplus column row m;;
  let* p := load Jplus row column in
  store Jminus column row p;;
  let* t := load Tp row column in
  store Tp column row t.

(** Lines 7 to 41: the body of the loop over [row]. *)
Definition row_body (row : Z) : Cmd unit :=
  let* e0 := load Ef (size - 1) row in
  add_double Jz row row
    (dmul (pow_2 (to_double e0)) (to_double (fsub (float_of_int (size - 1)) j)));;
  for_ 0 (size - 1) (diagonal_step row);;
  let* p := load Jplus row row in
  store Jminus row row p;;
  for_ (row + 1) size (pair_body row).

(** The whole function.  The local array [result] holds the four
    top-left cells; its first element is returned. *)
Definition get : Cmd float :=
  for_ 0 size row_body;;
  let* r0 := load Jz 0 0 in
  let* r1 := load Jplus 0 0 in
  let* r2 := load Jminus 0 0 in
  let* r3 := load Tp 0 0 in
  let result := [r0; r1; r2; r3] in
  ret (hd r0 result).

End Get.


(** ** Shapes and descriptions of the store *)

(** A matrix of [n] rows of [n] cells. *)
Definition shaped (n : Z) (m : matrix) : Prop :=
  length m = Z.to_nat n /\ Forall (fun row => length row = Z.to_nat n) m.

(** The five matrices are [n] by [n]. *)
Definition well_formed (n : Z) (s : state) : Prop :=
  forall a, shaped n (sel a s).

(** A matrix the caller has zero-initialized. *)
Definition zero_matrix (n : Z) : matrix :=
  replicate (Z.to_nat n) (replicate (Z.to_nat n) zero).

(** The contents of the five matrices as a function of the matrix and the
    cell. *)
Definition grid : Type := name -> Z -> Z -> float.

(** The description of a given store. *)
Definition contents (s : state) : grid :=
  fun a i k => default S754_nan (read (sel a s) i k).

Definition name_eqb (a b : name) : bool :=
  match a, b with
  | Jz, Jz | Jplus, Jplus | Jminus, Jminus | Tp, Tp | Ef, Ef => true
  | _, _ => false
  end.

Definition poke (g : grid) (a : name) (i k : Z) (v : float) : grid :=
  fun b i' k' =>
    if name_eqb a b && (i =? i') && (k =? k') then v else g b i' k'.

(** [s] holds five [n] by [n] matrices with the contents [g]. *)
Definition repr (n : Z) (s : state) (g : grid) : Prop :=
  forall a, shaped n (sel a s) /\
    forall i k, 0 <= i < n -> 0 <= k < n -> read (sel a s) i k = Some (g a i k).

Definition same (n : Z) (g g' : grid) : Prop :=
  forall a i k, 0 <= i < n -> 0 <= k < n -> g a i k = g' a i k.

(** Started in a store described by [g], the command returns [a] and
    leaves a store described by [g']. *)
Definition exec {A} (n : Z) (g : grid) (m : Cmd A) (a : A) (g' : grid) : Prop :=
  forall s, repr n s g -> exists s', m s = Some (a, s') /\ repr n s' g'.

(** ** The result of [get] in closed form *)

(** [n] terms accumulated into a cell, in the order of the loop. *)
Fixpoint accumulate {T} (add : float -> T -> float) (term : Z -> T)
    (n : nat) (init : float) : float :=
  match n with
  | O => init
  | S n' => add (accumulate add term n' init) (term (Z.of_nat n'))
  end.

(** [x += t] on a [float] cell with a [double] operand. *)
Definition add_d (x : float) (t : double) : float :=
  to_float (dadd (to_double x) t).

Section Closed_form.

Variables (j squared_j : float) (size : Z).

(** The store on entry. *)
Variable g0 : grid.

(** The magnetic quantum number of the basis state [i]. *)
Definition mqn (i : Z) : float := fsub (float_of_int i) j.

Definition z_diag_term (r i : Z) : double :=
  dmul (pow_2 (to_double (g0 Ef i r))) (to_double (mqn i)).

Definition p_diag_term (r i : Z) : double :=
  dmul (to_double (fmul (g0 Ef (i + 1) r) (g0 Ef i r)))
    (sqrt (to_double
       (fsub squared_j (fmul (mqn i) (fadd (mqn i) (float_of_int 1)))))).

Definition root (i : Z) : float :=
  to_float (sqrt (to_double (fsub squared_j (fmul (mqn i) (mqn (i + 1)))))).

Definition z_term (r c i : Z) : float :=
  fmul (fmul (g0 Ef i r) (g0 Ef i c)) (mqn i).

Definition p_term (r c i : Z) : float :=
  fmul (fmul (g0 Ef (i + 1) r) (g0 Ef i c)) (root i).

Definition m_term (r c i : Z) : float :=
  fmul (fmul (g0 Ef i r) (g0 Ef (i + 1) c)) (root i).

(** The diagonal cells, accumulated up to the basis state [n]. *)
Definition z_diag_upto (r : Z) (n : nat) : float :=
  accumulate add_d (z_diag_term r) n
    (add_d (g0 Jz r r) (z_diag_term r (size - 1))).
Definition p_diag_upto (r : Z) (n : nat) : float :=
  accumulate add_d (p_diag_term r) n (g0 Jplus r r).

(** The cells above the diagonal. *)
Definition z_upto (r c : Z) (n : nat) : float :=
  accumulate fadd (z_term r c) n (fadd (g0 Jz r c) (z_term r c (size - 1))).
Definition p_upto (r c : Z) (n : nat) : float :=
  accumulate fadd (p_term r c) n (g0 Jplus r c).
Definition m_upto (r c : Z) (n : nat) : float :=
  accumulate fadd (m_term r c) n (g0 Jminus r c).

Definition z_diag (r : Z) : float := z_diag_upto r (Z.to_nat (size - 1)).
Definition p_diag (r : Z) : float := p_diag_upto r (Z.to_nat (size - 1)).
Definition z_upper (r c : Z) : float := z_upto r c (Z.to_nat (size - 1)).
Definition p_upper (r c : Z) : float := p_upto r c (Z.to_nat (size - 1)).
Definition m_upper (r c : Z) : float := m_upto r c (Z.to_nat (size - 1)).
Definition t_upper (r c : Z) : float :=
  probability (z_upper r c) (p_upper r c) (m_upper r c).

(** The store on return. *)
Definition final : grid := fun a r c =>
  match a with
  | Jz => if r =? c then z_diag r else if r <? c then z_upper r c else z_upper c r
  | Jplus => if r =? c then p_diag r else if r <? c then p_upper r c else m_upper c r
  | Jminus => if r =? c then p_diag r else if r <? c then m_upper r c else p_upper c r
  | Tp => if r =? c then g0 Tp r c else if r <? c then t_upper r c else t_upper c r
  | Ef => g0 Ef r c
  end.

(** The store on entry to the iteration [R] of the loop over [row]: the
    cells of the rows and columns below [R] are final, the others
    untouched. *)
Definition rows_done (R : Z) : grid := fun a r c =>
  if Z.min r c <? R then final a r c else g0 a r c.

(** The store on entry to the iteration [C] of the loop over [column] in
    the row [R]. *)
Definition columns_done (R C : Z) : grid := fun a r c =>
  if (Z.min r c <? R) || ((Z.min r c =? R) && (Z.max r c <? C))
  then final a r c else g0 a r c.

(** The store inside the two loops over the basis states. *)
Definition diagonal_upto (R n : Z) : grid :=
  poke (poke (rows_done R) Jz R R (z_diag_upto R (Z.to_nat n)))
    Jplus R R (p_diag_upto R (Z.to_nat n)).

Definition pair_upto (R C n : Z) : grid :=
  poke (poke (poke (columns_done R C) Jz R C (z_upto R C (Z.to_nat n)))
          Jplus R C (p_upto R C (Z.to_nat n)))
    Jminus R C (m_upto R C (Z.to_nat n)).

End Closed_form.

(** ** Some values and inputs *)

(** [1], [0.5], [0.75], and the [float] nearest to [1/3] and to [2/3], as
    mantissa and exponent. *)
Definition one : float := S754_finite false 8388608 (-23).
Definition half : float := S754_finite false 8388608 (-24).
Definition three_quarters : float := S754_finite false 12582912 (-24).
Definition third : float := S754_finite false 11184811 (-25).
Definition two_thirds : float := S754_finite false 11184811 (-24).

(** The [n] by [n] identity matrix. *)
Definition identity_row (n : nat) (i : nat) : list float :=
  (fun k => if Nat.eqb i k then one else zero) <$> seq 0 n.
Definition identity_matrix (n : Z) : matrix :=
  identity_row (Z.to_nat n) <$> seq 0 (Z.to_nat n).

(** The input of the case J = 1/2: the eigenvectors are the basis states,
    the outputs are zero-initialized. *)
Definition spin_half : state :=
  State (zero_matrix 2) (zero_matrix 2) (zero_matrix 2) (zero_matrix 2)
    (identity_matrix 2).

(** The input of the case J = 0: one state, zero-initialized outputs. *)
Definition spin_zero : state :=
  State [[zero]] [[zero]] [[zero]] [[zero]] [[one]].

(** A command that leaves the matrix [eigenfunctions] as it found it. *)
Definition keeps_eigenfunctions {A} (m : Cmd A) : Prop :=
  forall s a s', m s = Some (a, s') -> eigenfunctions s' = eigenfunctions s.

(** [y] is [x] with the sign changed, where the two zeros count as the
    same number: what [y == -x] tests in C, extended to hold of two NaN. *)
Definition opposite (x y : spec_float) : Prop :=
  y = SFopp x \/ (is_zero x = true /\ is_zero y = true).

(** The matrix with every entry of the column [k] negated. *)
Definition flip_column (k : Z) (m : matrix) : matrix :=
  alter SFopp (Z.to_nat k) <$> m.

(** The store with the eigenvector [k] negated. *)
Definition flip_eigenvector (k : Z) (s : state) : state :=
  upd Ef (flip_column k (eigenfunctions s)) s.

(** [g'] describes the store [g] with the eigenvector [k] negated. *)
Definition flipped (k : Z) (g g' : grid) : Prop :=
  (forall a i c, a <> Ef -> g' a i c = g a i c) /\
  (forall i c, 0 <= i -> 0 <= c ->
     g' Ef i c = if c =? k then SFopp (g Ef i c) else g Ef i c).

(** The four output matrices of [g] are zero. *)
Definition zeroed (n : Z) (g : grid) : Prop :=
  forall a i c, a <> Ef -> 0 <= i < n -> 0 <= c < n -> g a i c = zero.

(** [1.0] as a [double]. *)
Definition one_double : double := S754_finite false 4503599627370496 (-52).

(** A [float] that stands for a real number, as the scalars and the matrix
    entries of the data model do: a binary32 value that is neither an
    infinity nor a NaN. *)
Definition real (x : float) : Prop :=
  valid_binary prec32 emax32 x = true /\ is_finite x = true.

(** A [float] that is valid, finite and not the negative zero. *)
Definition good (x : float) : Prop :=
  valid_binary prec32 emax32 x = true /\ is_finite x = true /\ x <> S754_zero true.

(** ** Further notions about the store and the numbers *)

(** The sign bit of a number; a NaN counts as not negative. *)
Definition negative (x : spec_float) : bool :=
  match x with
  | S754_zero s | S754_infinity s | S754_finite s _ _ => s
  | S754_nan => false
  end.

(** Two stores agree on [eigenfunctions] and on the cells of the outputs
    that the call reads before it writes them: the diagonal and the upper
    triangle of [j_z] and [j_plus], the upper triangle of [j_minus] and the
    diagonal of [transition_probability]. *)
Definition agree (n : Z) (g g' : grid) : Prop :=
  (forall i k, 0 <= i < n -> 0 <= k < n -> g Ef i k = g' Ef i k) /\
  (forall r c, 0 <= r <= c -> c < n ->
     g Jz r c = g' Jz r c /\ g Jplus r c = g' Jplus r c) /\
  (forall r c, 0 <= r < c -> c < n -> g Jminus r c = g' Jminus r c) /\
  (forall r, 0 <= r < n -> g Tp r r = g' Tp r r).

(** The two stores have rows of the same lengths, matrix by matrix. *)
Definition same_shape (s s' : state) : Prop :=
  forall a, length <$> sel a s = length <$> sel a s'.

Definition keeps_shape {A} (m : Cmd A) : Prop :=
  forall s a s', m s = Some (a, s') -> same_shape s s'.

(** The command does not return unless the cell [(i, k)] of the matrix [a]
    is allocated. *)
Definition needs {A} (m : Cmd A) (a : name) (i k : Z) : Prop :=
  forall s r, m s = Some r -> is_Some (read (sel a s) i k).

(** The value is a number that can stand in a sum: it is not an infinity
    or a NaN, and it is not the negative zero. *)
Definition defined (x : float) : Prop :=
  is_finite x = true /\ x <> S754_zero true.

(** [2], and the input of the case J = 1: three basis states for
    eigenvectors, zero-initialized outputs. *)
Definition two : float := S754_finite false 8388608 (-22).

Definition spin_one : state :=
  State (zero_matrix 3) (zero_matrix 3) (zero_matrix 3) (zero_matrix 3)
    (identity_matrix 3).

(** The command writes only inside the leading [n] by [n] block of the
    matrices: every other cell reads after it as it read before. *)
Definition writes_within {A} (n : Z) (m : Cmd A) : Prop :=
  forall s a s', m s = Some (a, s') ->
    forall b i k, ~ (0 <= i < n /\ 0 <= k < n) ->
      read (sel b s') i k = read (sel b s) i k.

(** Five 3 by 3 matrices of which a call with [size = 2] uses a part. *)
Definition roomy : state :=
  State (replicate 3 [one; two; half]) (replicate 3 [one; two; half])
    (replicate 3 [one; two; half]) (replicate 3 [one; two; half])
    (identity_matrix 3).

(** The number a finite [float] stands for, in units of [2 ^ -149], the
    least positive [float]: an integer, since a valid [float] has no
    exponent below [-149]. *)
Definition scaled (x : float) : option Z :=
  match x with
  | S754_zero _ => Some 0
  | S754_finite s m e => Some (cond_Zopp s (Z.pos m) * 2 ^ (e + 149))
  | _ => None
  end.

(** The number [x] stands for is [i - j], with no rounding. *)
Definition exact_difference (i : Z) (j x : float) : Prop :=
  exists a b, scaled x = Some a /\ scaled j = Some b /\ a = i * 2 ^ 149 - b.

(** [2 ^ 25] and [2 ^ 50]. *)
Definition two_to_25 : float := S754_finite false 8388608 2.
Definition two_to_50 : float := S754_finite false 8388608 27.

(** The store a caller prepares as the specification asks: the four
    outputs zero-initialized, beside the eigenvectors [e]. *)
Definition zero_initialized (n : Z) (e : matrix) : state :=
  State (zero_matrix n) (zero_matrix n) (zero_matrix n) (zero_matrix n) e.

(** A store for two states in which none of the four outputs is
    zero-initialized: the cells below the diagonal, the diagonal of
    [j_minus] and the off-diagonal cells of [transition_probability] hold
    other values. *)
Definition unzeroed : state :=
  State [[zero; zero]; [one; zero]] [[zero; zero]; [half; zero]]
    [[one; zero]; [third; half]] [[zero; one]; [one; zero]]
    (identity_matrix 2).

(** * Properties *)

(** ** IEEE arithmetic: digits *)

Lemma digits2_pos_size m : digits2_pos m = Pos.size m.
Proof. induction m as [m IH | m IH |]; simpl; rewrite ?IH; reflexivity. Qed.

Lemma Zdigits2_log2 m : 0 < m -> Zdigits2 m = Z.log2 m + 1.
Proof.
  destruct m as [| m | m]; try lia. intros _. simpl.
  rewrite digits2_pos_size. destruct m; simpl; lia.
Qed.

Lemma Zdigits2_bounds m :
  0 < m -> 2 ^ (Zdigits2 m - 1) <= m < 2 ^ Zdigits2 m.
Proof.
  intros H. rewrite Zdigits2_log2 by assumption.
  replace (Z.log2 m + 1 - 1) with (Z.log2 m) by lia.
  apply Z.log2_spec. assumption.
Qed.

Lemma Zdigits2_pos m : 0 < m -> 0 < Zdigits2 m.
Proof.
  intros H. rewrite Zdigits2_log2 by assumption.
  pose proof (Z.log2_nonneg m). lia.
Qed.

Lemma Zdigits2_le_of_lt m k : 0 < m -> m < 2 ^ k -> Zdigits2 m <= k.
Proof.
  intros Hm Hk. rewrite Zdigits2_log2 by assumption.
  destruct (Z.le_gt_cases 0 k) as [H0 | H0].
  - apply Z.log2_lt_pow2 in Hk; lia.
  - rewrite Z.pow_neg_r in Hk by lia. lia.
Qed.

Lemma Zdigits2_ge_of_le m k : 0 < m -> 2 ^ (k - 1) <= m -> k <= Zdigits2 m.
Proof.
  intros Hm Hk. rewrite Zdigits2_log2 by assumption.
  destruct (Z.le_gt_cases 0 (k - 1)) as [H0 | H0].
  - apply Z.log2_le_pow2 in Hk; lia.
  - pose proof (Z.log2_nonneg m). lia.
Qed.

Lemma Zdigits2_mul_pow2 m k :
  0 < m -> 0 <= k -> Zdigits2 (m * 2 ^ k) = Zdigits2 m + k.
Proof.
  intros Hm Hk.
  assert (0 < 2 ^ k) by (apply Z.pow_pos_nonneg; lia).
  rewrite !Zdigits2_log2 by nia.
  rewrite Z.log2_mul_pow2 by lia. lia.
Qed.

(** ** IEEE arithmetic: shifting to the right *)

Lemma iter_pos_nat {A} (f : A -> A) p x :
  SpecFloat.iter_pos f p x = Nat.iter (Pos.to_nat p) f x.
Proof.
  revert x. induction p as [p IH | p IH |]; intros x.
  - simpl SpecFloat.iter_pos. rewrite !IH.
    replace (Pos.to_nat p~1) with (Pos.to_nat p + (Pos.to_nat p + 1))%nat by lia.
    rewrite !Nat.iter_add. simpl. reflexivity.
  - simpl SpecFloat.iter_pos. rewrite !IH.
    replace (Pos.to_nat p~0) with (Pos.to_nat p + Pos.to_nat p)%nat by lia.
    rewrite Nat.iter_add. reflexivity.
  - reflexivity.
Qed.

Lemma shr_1_m mrs : 0 <= shr_m mrs -> shr_m (shr_1 mrs) = shr_m mrs / 2.
Proof.
  destruct mrs as [m r s]. simpl. intros Hm.
  destruct m as [| [p | p |] | p]; cbn [shr_m]; try lia; try reflexivity.
  - apply Z.div_unique with 1; lia.
  - apply Z.div_unique with 0; lia.
Qed.

Lemma shr_1_r mrs : 0 <= shr_m mrs -> shr_r (shr_1 mrs) = Z.odd (shr_m mrs).
Proof.
  destruct mrs as [m r s]. simpl. intros Hm.
  destruct m as [| [p | p |] | p]; simpl; try reflexivity; lia.
Qed.

Lemma shr_iter_m n mrs :
  0 <= shr_m mrs -> shr_m (Nat.iter n shr_1 mrs) = shr_m mrs / 2 ^ Z.of_nat n.
Proof.
  intros Hm. induction n as [| n IH].
  - simpl. rewrite Z.div_1_r. reflexivity.
  - rewrite Nat.iter_succ. rewrite shr_1_m.
    + rewrite IH. rewrite Z.div_div by (try apply Z.pow_pos_nonneg; lia).
      f_equal. rewrite Nat2Z.inj_succ, Z.pow_succ_r by lia. lia.
    + rewrite IH. apply Z.div_pos; [lia | apply Z.pow_pos_nonneg; lia].
Qed.

(** Shifting out zeros is exact. *)
Lemma shr_iter_exact n a :
  0 <= a ->
  Nat.iter n shr_1 (Build_shr_record (a * 2 ^ Z.of_nat n) false false) =
  Build_shr_record a false false.
Proof.
  intros Ha. induction n as [| n IH].
  - simpl. f_equal. lia.
  - rewrite Nat.iter_succ_r.
    replace (shr_1 (Build_shr_record (a * 2 ^ Z.of_nat (S n)) false false))
      with (Build_shr_record (a * 2 ^ Z.of_nat n) false false); [exact IH |].
    rewrite Nat2Z.inj_succ, Z.pow_succ_r by lia.
    assert (0 <= a * 2 ^ Z.of_nat n) by (apply Z.mul_nonneg_nonneg; [lia | apply Z.pow_nonneg; lia]).
    destruct (a * 2 ^ Z.of_nat n) as [| q | q] eqn:E; try lia.
    + replace (a * (2 * 2 ^ Z.of_nat n)) with 0 by lia. reflexivity.
    + replace (a * (2 * 2 ^ Z.of_nat n)) with (Z.pos q~0) by lia. reflexivity.
Qed.

Lemma shr_exact m e n a :
  0 <= a -> 0 <= n -> m = a * 2 ^ n ->
  shr (Build_shr_record m false false) e n = (Build_shr_record a false false, e + n).
Proof.
  intros Ha Hn ->. unfold shr. destruct n as [| p | p]; try lia.
  - f_equal; [f_equal; lia | lia].
  - rewrite iter_pos_nat. f_equal.
    rewrite <- (positive_nat_Z p). apply shr_iter_exact. assumption.
Qed.

Lemma shr_iter_r n mrs :
  0 <= shr_m mrs ->
  shr_r (Nat.iter (S n) shr_1 mrs) = Z.odd (shr_m mrs / 2 ^ Z.of_nat n).
Proof.
  intros Hm. rewrite Nat.iter_succ. rewrite shr_1_r.
  - rewrite shr_iter_m by assumption. reflexivity.
  - rewrite shr_iter_m by assumption.
    apply Z.div_pos; [lia | apply Z.pow_pos_nonneg; lia].
Qed.

Lemma round_nearest_even_bounds mrs :
  let m' := round_nearest_even (shr_m mrs) (loc_of_shr_record mrs) in
  shr_m mrs <= m' <= shr_m mrs + 1 /\ (shr_r mrs = false -> m' = shr_m mrs).
Proof.
  destruct mrs as [m [|] [|]]; simpl; try (split; [lia | intros; reflexivity || discriminate]).
  destruct (Z.even m); split; try lia; discriminate.
Qed.

(** The first shift of [binary_round_aux] and the rounding that follows:
    the rounded mantissa is the quotient or its successor, and exceeds the
    exact quotient by half a unit at most. *)
Lemma shr_round m e n :
  0 <= m -> 0 <= n ->
  let mrs := fst (shr (Build_shr_record m false false) e n) in
  let m' := round_nearest_even (shr_m mrs) (loc_of_shr_record mrs) in
  snd (shr (Build_shr_record m false false) e n) = e + n /\
  m / 2 ^ n <= m' <= m / 2 ^ n + 1 /\
  2 * m' * 2 ^ n <= 2 * m + 2 ^ n.
Proof.
  intros Hm Hn. destruct n as [| q | q]; try lia.
  - simpl. rewrite Z.div_1_r. lia.
  - cbv zeta. unfold shr. cbn [fst snd]. rewrite iter_pos_nat.
    destruct (Pos2Nat.is_succ q) as [k Hk]. rewrite Hk.
    assert (Hq : Z.pos q = Z.of_nat k + 1) by lia.
    set (mrs := Nat.iter (S k) shr_1 (Build_shr_record m false false)).
    pose proof (shr_iter_m (S k) (Build_shr_record m false false) Hm) as Hmm.
    pose proof (shr_iter_r k (Build_shr_record m false false) Hm) as Hr.
    fold mrs in Hmm, Hr. cbn [shr_m] in Hmm, Hr.
    replace (Z.of_nat (S k)) with (Z.pos q) in Hmm by lia.
    destruct (round_nearest_even_bounds mrs) as [Hb Hf].
    rewrite Hmm in Hb, Hf. rewrite Hmm.
    split; [reflexivity |]. split; [exact Hb |].
    assert (Hpow : 2 ^ Z.pos q = 2 * 2 ^ Z.of_nat k).
    { rewrite Hq, Z.pow_add_r by lia. lia. }
    assert (Hk0 : 0 < 2 ^ Z.of_nat k) by (apply Z.pow_pos_nonneg; lia).
    assert (Hdiv : m / 2 ^ Z.pos q = (m / 2 ^ Z.of_nat k) / 2).
    { rewrite Hpow. rewrite Z.mul_comm. rewrite <- Z.div_div by lia. reflexivity. }
    pose proof (Z.div_mod m (2 ^ Z.of_nat k) ltac:(lia)) as Hdm.
    pose proof (Z.mod_pos_bound m (2 ^ Z.of_nat k) Hk0) as Hmb.
    set (a := m / 2 ^ Z.of_nat k) in *.
    pose proof (Z.div_mod a 2 ltac:(lia)) as Hda.
    pose proof (Z.mod_pos_bound a 2 ltac:(lia)) as Hab.
    destruct (shr_r mrs) eqn:Er.
    + pose proof (Zmod_odd a) as Hodd. rewrite <- Hr in Hodd.
      rewrite Hdiv in *. nia.
    + rewrite (Hf eq_refl). rewrite Hdiv in *. nia.
Qed.

(** ** IEEE arithmetic: rounding *)

Lemma pow2_pos k : 0 <= k -> 0 < 2 ^ k.
Proof. intros H. apply Z.pow_pos_nonneg; lia. Qed.

Lemma div_pow2_lt m d n :
  0 <= m < 2 ^ d -> 0 <= n <= d -> m / 2 ^ n < 2 ^ (d - n).
Proof.
  intros Hm Hn. apply Z.div_lt_upper_bound; [apply pow2_pos; lia |].
  rewrite <- Z.pow_add_r by lia. replace (n + (d - n)) with d by lia. lia.
Qed.

Lemma div_pow2_ge m d n :
  2 ^ d <= m -> 0 <= n <= d -> 2 ^ (d - n) <= m / 2 ^ n.
Proof.
  intros Hm Hn. apply Z.div_le_lower_bound; [apply pow2_pos; lia |].
  rewrite <- Z.pow_add_r by lia. replace (n + (d - n)) with d by lia. lia.
Qed.

Lemma div_pow2_small m d n : 0 <= m < 2 ^ d -> 0 <= d <= n -> m / 2 ^ n = 0.
Proof.
  intros Hm Hn. apply Z.div_small. split; [lia |].
  apply Z.lt_le_trans with (2 ^ d); [lia |].
  apply Z.pow_le_mono_r; lia.
Qed.

Lemma Zdigits2_pow2 k : 0 <= k -> Zdigits2 (2 ^ k) = k + 1.
Proof.
  intros Hk. rewrite Zdigits2_log2 by (apply pow2_pos; lia).
  rewrite Z.log2_pow2 by lia. reflexivity.
Qed.

Section Round.

Variables prec emax : Z.

(** What [binary_round_aux] returns on an exact mantissa that is at least
    as long as the format asks: [m'] is the rounded mantissa at the exponent
    the format assigns to the magnitude. *)
Lemma binary_round_aux_cases s mz ez :
  0 < prec -> prec < emax ->
  let F := fexp prec emax (Zdigits2 (Z.pos mz) + ez) in
  ez <= F ->
  exists m',
    0 <= m' /\
    Z.pos mz / 2 ^ (F - ez) <= m' <= Z.pos mz / 2 ^ (F - ez) + 1 /\
    2 * m' * 2 ^ (F - ez) <= 2 * Z.pos mz + 2 ^ (F - ez) /\
    m' <= 2 ^ prec /\
    (0 < m' < 2 ^ prec -> fexp prec emax (Zdigits2 m' + F) = F) /\
    binary_round_aux prec emax s (Z.pos mz) ez loc_Exact =
      if m' =? 0 then S754_zero s
      else if m' <? 2 ^ prec then
        if F <=? emax - prec then S754_finite s (Z.to_pos m') F
        else S754_infinity s
      else
        if F + 1 <=? emax - prec
        then S754_finite s (Z.to_pos (2 ^ (prec - 1))) (F + 1)
        else S754_infinity s.
Proof.
  intros Hprec Hemax F HF.
  set (D := Zdigits2 (Z.pos mz)) in *.
  assert (HD : 0 < D) by (apply Zdigits2_pos; lia).
  destruct (Zdigits2_bounds (Z.pos mz) ltac:(lia)) as [HDl HDu]. fold D in HDl, HDu.
  set (n := F - ez) in *.
  assert (Hn : 0 <= n) by lia.
  assert (HFdef : F = Z.max (D + ez - prec) (3 - emax - prec)) by reflexivity.
  destruct (shr_round (Z.pos mz) ez n ltac:(lia) Hn) as (He' & Hb & Hhalf).
  unfold binary_round_aux, shr_fexp. fold D. fold F. fold n.
  change (shr_record_of_loc (Z.pos mz) loc_Exact)
    with (Build_shr_record (Z.pos mz) false false).
  destruct (shr (Build_shr_record (Z.pos mz) false false) ez n) as [mrs e'] eqn:Eshr.
  cbn [fst snd] in He', Hb, Hhalf. subst e'.
  replace (ez + n) with F by lia.
  set (m' := round_nearest_even (shr_m mrs) (loc_of_shr_record mrs)) in *.
  assert (Hquot : Z.pos mz / 2 ^ n < 2 ^ prec /\
                  (3 - emax - prec < F -> 2 ^ (prec - 1) <= Z.pos mz / 2 ^ n)).
  { destruct (Z.le_gt_cases n D) as [HnD | HnD].
    - split.
      + apply Z.lt_le_trans with (2 ^ (D - n)); [apply div_pow2_lt; lia |].
        apply Z.pow_le_mono_r; lia.
      + intros Hgt. replace (prec - 1) with ((D - 1) - n) by lia.
        apply div_pow2_ge; lia.
    - split.
      + rewrite (div_pow2_small _ D) by lia. apply pow2_pos. lia.
      + intros Hgt. lia. }
  destruct Hquot as [Hq1 Hq2].
  assert (Hm'le : m' <= 2 ^ prec) by lia.
  assert (Hcanon : 0 < m' < 2 ^ prec -> fexp prec emax (Zdigits2 m' + F) = F).
  { intros Hm'. unfold fexp, emin.
    pose proof (Zdigits2_le_of_lt m' prec ltac:(lia) ltac:(lia)) as Hd1.
    destruct (Z.le_gt_cases F (3 - emax - prec)) as [Hmin | Hgt]; [lia |].
    pose proof (Zdigits2_ge_of_le m' prec ltac:(lia) ltac:(specialize (Hq2 Hgt); lia)).
    lia. }
  assert (Hm'0 : 0 <= m').
  { pose proof (Z.div_pos (Z.pos mz) (2 ^ n) ltac:(lia) (pow2_pos n Hn)). lia. }
  exists m'. split; [exact Hm'0 |]. split; [exact Hb |]. split; [exact Hhalf |].
  split; [exact Hm'le |]. split; [exact Hcanon |].
  destruct (Z.eqb_spec m' 0) as [E0 | E0].
  - rewrite E0. cbn [Zdigits2 shr_record_of_loc].
    assert (Hle : fexp prec emax (0 + F) - F <= 0) by (unfold fexp, emin; lia).
    unfold shr. destruct (fexp prec emax (0 + F) - F); try lia; reflexivity.
  - destruct (Z.ltb_spec m' (2 ^ prec)) as [Hlt | Hge].
    + rewrite Hcanon by lia. rewrite Z.sub_diag. cbn [shr shr_record_of_loc shr_m].
      destruct m' as [| q | q] eqn:Em; try lia. reflexivity.
    + assert (Em : m' = 2 ^ prec) by lia. rewrite Em.
      rewrite Zdigits2_pow2 by lia.
      assert (HF1 : fexp prec emax (prec + 1 + F) - F = 1) by (unfold fexp, emin; lia).
      rewrite HF1. cbn [shr_record_of_loc].
      pose proof (pow2_pos (prec - 1) ltac:(lia)) as Hp.
      assert (Hsplit : 2 ^ prec = 2 ^ (prec - 1) * 2 ^ 1).
      { rewrite <- Z.pow_add_r by lia. f_equal. lia. }
      rewrite (shr_exact (2 ^ prec) F 1 (2 ^ (prec - 1)) ltac:(lia) ltac:(lia) Hsplit).
      cbn [shr_m].
      destruct (2 ^ (prec - 1)) as [| q | q] eqn:E; try lia. reflexivity.
Qed.

Lemma iter_xO_pow2 m d : Z.pos (Pos.iter xO m d) = Z.pos m * 2 ^ Z.pos d.
Proof.
  induction d as [| d IH] using Pos.peano_ind.
  - simpl. lia.
  - rewrite Pos.iter_succ. rewrite Pos2Z.inj_xO, IH.
    rewrite Pos2Z.inj_succ, Z.pow_succ_r by lia. lia.
Qed.

Lemma shl_align_spec m e e' :
  snd (shl_align m e e') = Z.min e e' /\
  Z.pos (fst (shl_align m e e')) = Z.pos m * 2 ^ (e - Z.min e e').
Proof.
  unfold shl_align. destruct (e' - e) as [| d | d] eqn:E; cbn [fst snd].
  - replace (Z.min e e') with e by lia. rewrite Z.sub_diag. lia.
  - replace (Z.min e e') with e by lia. rewrite Z.sub_diag. lia.
  - replace (Z.min e e') with e' by lia. rewrite iter_xO_pow2.
    replace (e - e') with (Z.pos d) by lia. split; reflexivity.
Qed.

(** [binary_round] on any mantissa and exponent: [mz], [ez] are the
    aligned mantissa and exponent, [m'] is the rounded mantissa. *)
Lemma binary_round_cases s m e :
  0 < prec -> prec < emax ->
  let F := fexp prec emax (Zdigits2 (Z.pos m) + e) in
  let ez := Z.min e F in
  let mz := Z.pos m * 2 ^ (e - ez) in
  exists m',
    0 <= m' /\
    mz / 2 ^ (F - ez) <= m' <= mz / 2 ^ (F - ez) + 1 /\
    2 * m' * 2 ^ (F - ez) <= 2 * mz + 2 ^ (F - ez) /\
    m' <= 2 ^ prec /\
    (0 < m' < 2 ^ prec -> fexp prec emax (Zdigits2 m' + F) = F) /\
    binary_round prec emax s m e =
      if m' =? 0 then S754_zero s
      else if m' <? 2 ^ prec then
        if F <=? emax - prec then S754_finite s (Z.to_pos m') F
        else S754_infinity s
      else
        if F + 1 <=? emax - prec
        then S754_finite s (Z.to_pos (2 ^ (prec - 1))) (F + 1)
        else S754_infinity s.
Proof.
  intros Hprec Hemax F ez mz.
  unfold binary_round. change (Z.pos (digits2_pos m)) with (Zdigits2 (Z.pos m)).
  fold F.
  destruct (shl_align_spec m e F) as [Hez Hmz].
  destruct (shl_align m e F) as [mz' ez'] eqn:Esh. cbn [fst snd] in Hez, Hmz.
  fold ez in Hez. subst ez'. fold ez in Hmz. fold mz in Hmz.
  assert (Hdig : Zdigits2 (Z.pos mz') + ez = Zdigits2 (Z.pos m) + e).
  { rewrite Hmz. unfold mz. rewrite Zdigits2_mul_pow2 by lia. lia. }
  pose proof (binary_round_aux_cases s mz' ez Hprec Hemax) as H.
  cbv zeta in H. rewrite Hdig in H. fold F in H.
  specialize (H ltac:(lia)). rewrite <- Hmz. exact H.
Qed.

Lemma binary_round_valid s m e :
  0 < prec -> prec < emax ->
  valid_binary prec emax (binary_round prec emax s m e) = true.
Proof.
  intros Hprec Hemax.
  destruct (binary_round_cases s m e Hprec Hemax)
    as (m' & H0 & Hb & _ & Hle & Hcanon & ->).
  set (F := fexp prec emax (Zdigits2 (Z.pos m) + e)) in *.
  destruct (Z.eqb_spec m' 0); [reflexivity |].
  destruct (Z.ltb_spec m' (2 ^ prec)).
  - destruct (Z.leb_spec F (emax - prec)); [| reflexivity].
    cbn [valid_binary]. unfold bounded, canonical_mantissa.
    change (Z.pos (digits2_pos (Z.to_pos m'))) with (Zdigits2 (Z.pos (Z.to_pos m'))).
    rewrite Z2Pos.id by lia. rewrite Hcanon by lia.
    rewrite Z.eqb_refl. apply Z.leb_le. lia.
  - destruct (Z.leb_spec (F + 1) (emax - prec)); [| reflexivity].
    cbn [valid_binary]. unfold bounded, canonical_mantissa.
    change (Z.pos (digits2_pos (Z.to_pos (2 ^ (prec - 1)))))
      with (Zdigits2 (Z.pos (Z.to_pos (2 ^ (prec - 1))))).
    rewrite Z2Pos.id by (apply pow2_pos; lia).
    rewrite Zdigits2_pow2 by lia.
    assert (E : fexp prec emax (prec - 1 + 1 + (F + 1)) = F + 1)
      by (unfold F, fexp, emin; lia).
    rewrite E, Z.eqb_refl. apply Z.leb_le. lia.
Qed.

(** The quotient of the first shift keeps at least one digit when the
    magnitude is above the least exponent. *)
Lemma binary_round_quotient m e :
  0 < prec -> prec < emax ->
  let D := Zdigits2 (Z.pos m) in
  let F := fexp prec emax (D + e) in
  let ez := Z.min e F in
  let mz := Z.pos m * 2 ^ (e - ez) in
  F < D + e ->
  2 ^ (D + e - F - 1) <= mz / 2 ^ (F - ez) < 2 ^ (D + e - F).
Proof.
  intros Hprec Hemax D F ez mz HF.
  destruct (Zdigits2_bounds (Z.pos m) ltac:(lia)) as [Hl Hu]. fold D in Hl, Hu.
  assert (HD : 0 < D) by (apply Zdigits2_pos; lia).
  assert (Hmz : 2 ^ (D - 1 + (e - ez)) <= mz < 2 ^ (D + (e - ez))).
  { unfold mz. rewrite !Z.pow_add_r by lia.
    pose proof (pow2_pos (e - ez) ltac:(lia)). nia. }
  split.
  - replace (D + e - F - 1) with ((D - 1 + (e - ez)) - (F - ez)) by lia.
    apply div_pow2_ge; lia.
  - replace (D + e - F) with ((D + (e - ez)) - (F - ez)) by lia.
    apply div_pow2_lt; lia.
Qed.

Lemma binary_round_not_zero s m e s' :
  0 < prec -> prec < emax ->
  emin prec emax < Zdigits2 (Z.pos m) + e ->
  binary_round prec emax s m e <> S754_zero s'.
Proof.
  intros Hprec Hemax He.
  destruct (binary_round_cases s m e Hprec Hemax)
    as (m' & H0 & Hb & _ & Hle & Hcanon & ->).
  pose proof (binary_round_quotient m e Hprec Hemax) as Hq. cbv zeta in Hq.
  set (F := fexp prec emax (Zdigits2 (Z.pos m) + e)) in *.
  specialize (Hq ltac:(unfold F, fexp, emin in *; lia)).
  pose proof (pow2_pos (Zdigits2 (Z.pos m) + e - F - 1)
                ltac:(unfold F, fexp, emin in *; lia)).
  destruct (Z.eqb_spec m' 0); [lia |].
  destruct (m' <? 2 ^ prec).
  - destruct (F <=? emax - prec); discriminate.
  - destruct (F + 1 <=? emax - prec); discriminate.
Qed.

(** Rounding adds one digit to the magnitude at most. *)
Lemma binary_round_magnitude s m e s' mo eo :
  0 < prec -> prec < emax -> emin prec emax <= e ->
  binary_round prec emax s m e = S754_finite s' mo eo ->
  Zdigits2 (Z.pos mo) + eo <= Zdigits2 (Z.pos m) + e + 1.
Proof.
  intros Hprec Hemax He.
  destruct (binary_round_cases s m e Hprec Hemax)
    as (m' & H0 & Hb & _ & Hle & Hcanon & ->).
  pose proof (binary_round_quotient m e Hprec Hemax) as Hq. cbv zeta in Hq.
  set (D := Zdigits2 (Z.pos m)) in *.
  set (F := fexp prec emax (D + e)) in *.
  assert (HD : 0 < D) by (apply Zdigits2_pos; lia).
  specialize (Hq ltac:(unfold F, fexp, emin in *; lia)).
  assert (HF : D + e - prec <= F) by (unfold F, fexp; lia).
  destruct (Z.eqb_spec m' 0); [discriminate |].
  destruct (Z.ltb_spec m' (2 ^ prec)).
  - destruct (F <=? emax - prec); [| discriminate].
    intros E. inversion E; subst s' mo eo. clear E.
    rewrite Z2Pos.id by lia.
    assert (Hm' : m' < 2 ^ (D + e - F + 1)).
    { rewrite Z.pow_add_r by (unfold F, fexp, emin in *; lia).
      pose proof (pow2_pos (D + e - F) ltac:(unfold F, fexp, emin in *; lia)). lia. }
    pose proof (Zdigits2_le_of_lt m' _ ltac:(lia) Hm'). lia.
  - destruct (F + 1 <=? emax - prec); [| discriminate].
    intros E. inversion E; subst s' mo eo. clear E.
    rewrite Z2Pos.id by (apply pow2_pos; lia).
    rewrite Zdigits2_pow2 by lia.
    assert (prec <= D + e - F); [| lia].
    apply Z.pow_le_mono_r_iff with 2; try lia.
    unfold F, fexp, emin in *; lia.
Qed.

(** No overflow: a value below the midpoint between the largest finite
    number and [2 ^ emax] rounds to a finite number. *)
Lemma binary_round_finite s m e :
  0 < prec -> prec < emax -> emin prec emax <= e ->
  Z.pos m * 2 ^ (e - emin prec emax) + 2 ^ (emax - prec - 1 - emin prec emax)
    < 2 ^ (emax - emin prec emax) ->
  is_finite (binary_round prec emax s m e) = true.
Proof.
  intros Hprec Hemax He Hval.
  destruct (binary_round_cases s m e Hprec Hemax)
    as (m' & H0 & Hb & Hhalf & Hle & Hcanon & ->).
  set (D := Zdigits2 (Z.pos m)) in *.
  set (F := fexp prec emax (D + e)) in *.
  set (ez := Z.min e F) in *.
  set (lo := emin prec emax) in *.
  assert (Hlo : lo = 3 - emax - prec) by reflexivity.
  assert (HFdef : F = Z.max (D + e - prec) lo) by reflexivity.
  assert (HD : 0 < D) by (apply Zdigits2_pos; lia).
  destruct (Zdigits2_bounds (Z.pos m) ltac:(lia)) as [Hl _]. fold D in Hl.
  pose proof (pow2_pos (emax - prec - 1 - lo) ltac:(lia)) as HQ.
  pose proof (pow2_pos (e - lo) ltac:(lia)) as HE.
  assert (HDe : D + e <= emax).
  { assert (2 ^ (D - 1 + (e - lo)) < 2 ^ (emax - lo)).
    { rewrite Z.pow_add_r by lia. nia. }
    apply Z.pow_lt_mono_r_iff in H; lia. }
  destruct (Z.eqb_spec m' 0); [reflexivity |].
  destruct (Z.ltb_spec m' (2 ^ prec)).
  - destruct (Z.leb_spec F (emax - prec)); [reflexivity | lia].
  - destruct (Z.leb_spec (F + 1) (emax - prec)); [reflexivity |].
    exfalso.
    assert (EF : F = emax - prec) by lia.
    set (A := 2 ^ (ez - lo)).
    set (B := 2 ^ (F - ez)) in *.
    assert (HA : 0 < A) by (apply pow2_pos; lia).
    assert (HB : 0 < B) by (apply pow2_pos; lia).
    assert (HAB : A * B = 2 * 2 ^ (emax - prec - 1 - lo)).
    { unfold A, B. rewrite <- Z.pow_add_r by lia.
      replace (ez - lo + (F - ez)) with (Z.succ (emax - prec - 1 - lo)) by lia.
      rewrite Z.pow_succ_r by lia. reflexivity. }
    assert (HT : 2 ^ prec * (A * B) = 2 ^ (emax - lo)).
    { unfold A, B. rewrite <- !Z.pow_add_r by lia. f_equal. lia. }
    assert (HV : Z.pos m * 2 ^ (e - ez) * A = Z.pos m * 2 ^ (e - lo)).
    { unfold A. rewrite <- Z.mul_assoc, <- Z.pow_add_r by lia. do 2 f_equal. lia. }
    nia.
Qed.

End Round.

Lemma valid_finite_inv prec emax s m e :
  0 < prec ->
  valid_binary prec emax (S754_finite s m e) = true ->
  fexp prec emax (Zdigits2 (Z.pos m) + e) = e /\
  e <= emax - prec /\
  Zdigits2 (Z.pos m) <= prec /\
  emin prec emax <= e.
Proof.
  intros Hprec H. cbn [valid_binary] in H. unfold bounded, canonical_mantissa in H.
  apply andb_true_iff in H as [Hc Hb].
  apply Z.eqb_eq in Hc. apply Z.leb_le in Hb.
  change (Z.pos (digits2_pos m)) with (Zdigits2 (Z.pos m)) in Hc.
  split; [exact Hc |]. split; [exact Hb |].
  unfold fexp in Hc. lia.
Qed.

(** ** IEEE arithmetic: [float] and [double] *)

(** The promotion of a [float] to [double]: the mantissa is filled up to
    53 digits. *)
Lemma to_double_finite s m e :
  valid_binary 24 128 (S754_finite s m e) = true ->
  let k := 53 - Zdigits2 (Z.pos m) in
  to_double (S754_finite s m e) =
  S754_finite s (Z.to_pos (Z.pos m * 2 ^ k)) (e - k).
Proof.
  intros Hv k.
  destruct (valid_finite_inv 24 128 s m e ltac:(lia) Hv) as (Hc & Hb & Hd & He).
  unfold emin in He.
  set (d := Zdigits2 (Z.pos m)) in *.
  assert (Hd0 : 0 < d) by (apply Zdigits2_pos; lia).
  cbn [to_double].
  destruct (binary_round_cases 53 1024 s m e ltac:(lia) ltac:(lia))
    as (m' & H0 & Hq & Hhalf & Hle & _ & ->).
  fold d in Hq, Hhalf |- *.
  assert (EF : fexp 53 1024 (d + e) = e - k) by (unfold fexp, emin, k; lia).
  rewrite EF in *.
  replace (Z.min e (e - k)) with (e - k) in * by lia.
  replace (e - k - (e - k)) with 0 in * by lia.
  replace (e - (e - k)) with k in * by lia.
  rewrite Z.pow_0_r, Z.div_1_r in *.
  assert (Em : m' = Z.pos m * 2 ^ k) by lia. rewrite Em.
  destruct (Zdigits2_bounds (Z.pos m) ltac:(lia)) as [Hl Hu]. fold d in Hl, Hu.
  assert (Hk : 0 <= k) by (unfold k; lia).
  assert (Hlo : 2 ^ 52 <= Z.pos m * 2 ^ k < 2 ^ 53).
  { replace 52 with ((d - 1) + k) by (unfold k; lia).
    replace 53 with (d + k) by (unfold k; lia).
    rewrite !Z.pow_add_r by lia. pose proof (pow2_pos k Hk). nia. }
  destruct (Z.eqb_spec (Z.pos m * 2 ^ k) 0); [lia |].
  destruct (Z.ltb_spec (Z.pos m * 2 ^ k) (2 ^ 53)); [| lia].
  destruct (Z.leb_spec (e - k) (1024 - 53)); [reflexivity | lia].
Qed.

Lemma to_float_to_double x :
  valid_binary 24 128 x = true -> to_float (to_double x) = x.
Proof.
  destruct x as [s | s | | s m e]; try reflexivity.
  intros Hv. rewrite (to_double_finite s m e Hv). cbv zeta.
  destruct (valid_finite_inv 24 128 s m e ltac:(lia) Hv) as (Hc & Hb & Hd & He).
  unfold emin in He.
  set (d := Zdigits2 (Z.pos m)) in *.
  set (k := 53 - d).
  assert (Hd0 : 0 < d) by (apply Zdigits2_pos; lia).
  assert (Hk : 0 <= k) by (unfold k; lia).
  pose proof (pow2_pos k Hk) as H2k.
  cbn [to_float].
  destruct (binary_round_cases 24 128 s (Z.to_pos (Z.pos m * 2 ^ k)) (e - k)
              ltac:(lia) ltac:(lia)) as (m' & H0 & Hq & Hhalf & Hle & _ & ->).
  rewrite Z2Pos.id in * by lia.
  rewrite Zdigits2_mul_pow2 in * by lia. fold d in Hq, Hhalf |- *.
  replace (d + k + (e - k)) with (d + e) in * by lia.
  rewrite Hc in *.
  replace (Z.min (e - k) e) with (e - k) in * by lia.
  replace (e - k - (e - k)) with 0 in * by lia.
  replace (e - (e - k)) with k in * by lia.
  rewrite Z.pow_0_r, Z.mul_1_r in *.
  rewrite Z.div_mul in Hq by lia.
  assert (Em : m' = Z.pos m) by nia. rewrite Em.
  destruct (Zdigits2_bounds (Z.pos m) ltac:(lia)) as [Hl Hu]. fold d in Hl, Hu.
  assert (Z.pos m < 2 ^ 24).
  { apply Z.lt_le_trans with (2 ^ d); [lia |]. apply Z.pow_le_mono_r; lia. }
  destruct (Z.eqb_spec (Z.pos m) 0); [lia |].
  destruct (Z.ltb_spec (Z.pos m) (2 ^ 24)); [| lia].
  destruct (Z.leb_spec e (128 - 24)); [reflexivity | lia].
Qed.

Lemma dmul_one_to_double x :
  valid_binary 24 128 x = true -> dmul one_double (to_double x) = to_double x.
Proof.
  destruct x as [s | s | | s m e]; try reflexivity.
  intros Hv. rewrite (to_double_finite s m e Hv). cbv zeta.
  destruct (valid_finite_inv 24 128 s m e ltac:(lia) Hv) as (Hc & Hb & Hd & He).
  unfold emin in He.
  set (d := Zdigits2 (Z.pos m)) in *.
  set (k := 53 - d).
  assert (Hd0 : 0 < d) by (apply Zdigits2_pos; lia).
  assert (Hk : 0 <= k) by (unfold k; lia).
  pose proof (pow2_pos k Hk) as H2k.
  destruct (Zdigits2_bounds (Z.pos m) ltac:(lia)) as [Hl Hu]. fold d in Hl, Hu.
  assert (Hlo : 2 ^ 52 <= Z.pos m * 2 ^ k < 2 ^ 53).
  { replace 52 with ((d - 1) + k) by (unfold k; lia).
    replace 53 with (d + k) by (unfold k; lia).
    rewrite !Z.pow_add_r by lia. nia. }
  set (M := Z.to_pos (Z.pos m * 2 ^ k)).
  assert (HM : Z.pos M = Z.pos m * 2 ^ k) by (unfold M; rewrite Z2Pos.id; lia).
  unfold dmul, one_double. cbn [SFmul xorb].
  destruct (binary_round_aux_cases 53 1024 s (4503599627370496 * M) (-52 + (e - k))
              ltac:(lia) ltac:(lia)) as (m' & H0 & Hq & Hhalf & Hle & _ & ->).
  { rewrite Pos2Z.inj_mul.
    change (Z.pos 4503599627370496) with (2 ^ 52).
    rewrite Z.mul_comm, Zdigits2_mul_pow2 by lia.
    rewrite HM, Zdigits2_mul_pow2 by lia. fold d. unfold fexp, emin, k. lia. }
  rewrite Pos2Z.inj_mul in *.
  change (Z.pos 4503599627370496) with (2 ^ 52) in *.
  rewrite (Z.mul_comm (2 ^ 52)) in *.
  rewrite Zdigits2_mul_pow2 in * by lia.
  rewrite HM in *. rewrite Zdigits2_mul_pow2 in * by lia. fold d in Hq, Hhalf |- *.
  assert (EF : fexp 53 1024 (d + k + 52 + (-52 + (e - k))) = e - k)
    by (unfold fexp, emin, k; lia).
  rewrite EF in *.
  replace (e - k - (-52 + (e - k))) with 52 in * by lia.
  rewrite Z.div_mul in Hq by lia.
  assert (Em : m' = Z.pos m * 2 ^ k) by nia. rewrite Em.
  destruct (Z.eqb_spec (Z.pos m * 2 ^ k) 0); [lia |].
  destruct (Z.ltb_spec (Z.pos m * 2 ^ k) (2 ^ 53)); [| lia].
  destruct (Z.leb_spec (e - k) (1024 - 53)); [| lia].
  unfold M. reflexivity.
Qed.

(** The square of a [float] does not overflow in [double]. *)
Lemma pow_2_to_double_finite x :
  valid_binary 24 128 x = true -> is_finite x = true ->
  is_finite (pow_2 (to_double x)) = true.
Proof.
  destruct x as [s | s | | s m e]; try discriminate; try reflexivity.
  intros Hv _. rewrite (to_double_finite s m e Hv). cbv zeta.
  destruct (valid_finite_inv 24 128 s m e ltac:(lia) Hv) as (Hc & Hb & Hd & He).
  unfold emin in He.
  set (d := Zdigits2 (Z.pos m)) in *.
  set (k := 53 - d).
  assert (Hd0 : 0 < d) by (apply Zdigits2_pos; lia).
  assert (Hk : 0 <= k) by (unfold k; lia).
  pose proof (pow2_pos k Hk) as H2k.
  destruct (Zdigits2_bounds (Z.pos m) ltac:(lia)) as [Hl Hu]. fold d in Hl, Hu.
  assert (Hlo : 2 ^ 52 <= Z.pos m * 2 ^ k < 2 ^ 53).
  { replace 52 with ((d - 1) + k) by (unfold k; lia).
    replace 53 with (d + k) by (unfold k; lia).
    rewrite !Z.pow_add_r by lia. nia. }
  set (M := Z.to_pos (Z.pos m * 2 ^ k)).
  assert (HM : Z.pos M = Z.pos m * 2 ^ k) by (unfold M; rewrite Z2Pos.id; lia).
  unfold pow_2, dmul. cbn [SFmul].
  assert (Hsq : 2 ^ 104 <= Z.pos (M * M) < 2 ^ 106).
  { rewrite Pos2Z.inj_mul, HM.
    change (2 ^ 104) with (2 ^ 52 * 2 ^ 52). change (2 ^ 106) with (2 ^ 53 * 2 ^ 53).
    nia. }
  assert (HD : 105 <= Zdigits2 (Z.pos (M * M)) <= 106).
  { split.
    - apply Zdigits2_ge_of_le; [lia |]. change (105 - 1) with 104. lia.
    - apply Zdigits2_le_of_lt; lia. }
  destruct (binary_round_aux_cases 53 1024 (xorb s s) (M * M) (e - k + (e - k))
              ltac:(lia) ltac:(lia)) as (m' & H0 & Hq & Hhalf & Hle & _ & ->).
  { unfold fexp, emin. lia. }
  set (F := fexp 53 1024 (Zdigits2 (Z.pos (M * M)) + (e - k + (e - k)))).
  assert (HF : F + 1 <= 1024 - 53) by (unfold F, fexp, emin, k; lia).
  destruct (m' =? 0); [reflexivity |].
  destruct (m' <? 2 ^ 53).
  - destruct (Z.leb_spec F (1024 - 53)); [reflexivity | lia].
  - destruct (Z.leb_spec (F + 1) (1024 - 53)); [reflexivity | lia].
Qed.

Lemma binary_round_sign prec emax s m e s' mo eo :
  0 < prec -> prec < emax ->
  binary_round prec emax s m e = S754_finite s' mo eo -> s' = s.
Proof.
  intros Hprec Hemax.
  destruct (binary_round_cases prec emax s m e Hprec Hemax) as (m' & _ & _ & _ & _ & _ & ->).
  destruct (m' =? 0); [discriminate |].
  destruct (m' <? 2 ^ prec).
  - destruct (_ <=? _); [| discriminate]. intros E. inversion E. reflexivity.
  - destruct (_ <=? _); [| discriminate]. intros E. inversion E. reflexivity.
Qed.

(** The value of a finite [float], scaled by [2 ^ 149] to an integer. *)
Lemma valid_value_bound s m e :
  valid_binary 24 128 (S754_finite s m e) = true ->
  Z.pos m * 2 ^ (e + 149) <= (2 ^ 24 - 1) * 2 ^ 253.
Proof.
  intros Hv.
  destruct (valid_finite_inv 24 128 s m e ltac:(lia) Hv) as (Hc & Hb & Hd & He).
  unfold emin in He.
  destruct (Zdigits2_bounds (Z.pos m) ltac:(lia)) as [_ Hu].
  assert (Z.pos m < 2 ^ 24).
  { apply Z.lt_le_trans with (2 ^ Zdigits2 (Z.pos m)); [lia |].
    apply Z.pow_le_mono_r; lia. }
  assert (2 ^ (e + 149) <= 2 ^ 253) by (apply Z.pow_le_mono_r; lia).
  pose proof (pow2_pos (e + 149) ltac:(lia)).
  apply Z.mul_le_mono_nonneg; lia.
Qed.

Lemma magnitude_value_bound m e d :
  Zdigits2 (Z.pos m) + e <= d -> -149 <= e ->
  Z.pos m * 2 ^ (e + 149) < 2 ^ (d + 149).
Proof.
  intros Hd He.
  destruct (Zdigits2_bounds (Z.pos m) ltac:(lia)) as [_ Hu].
  pose proof (Zdigits2_pos (Z.pos m) ltac:(lia)).
  apply Z.lt_le_trans with (2 ^ Zdigits2 (Z.pos m) * 2 ^ (e + 149)).
  - apply Z.mul_lt_mono_pos_r; [apply pow2_pos; lia | lia].
  - rewrite <- Z.pow_add_r by lia. apply Z.pow_le_mono_r; lia.
Qed.

Lemma float_of_int_pos i :
  0 < i < 2 ^ 31 ->
  exists m e,
    float_of_int i = S754_finite false m e /\
    valid_binary 24 128 (S754_finite false m e) = true /\
    Zdigits2 (Z.pos m) + e <= 32.
Proof.
  intros Hi. unfold float_of_int.
  destruct i as [| p | p]; try lia. cbn [binary_normalize].
  pose proof (binary_round_valid 24 128 false p 0 ltac:(lia) ltac:(lia)) as Hv.
  pose proof (binary_round_not_zero 24 128 false p 0) as Hnz.
  assert (Hf : is_finite (binary_round 24 128 false p 0) = true).
  { apply binary_round_finite; unfold emin; lia. }
  destruct (binary_round 24 128 false p 0) as [s | s | | s m e] eqn:E; try discriminate.
  - exfalso. pose proof (Zdigits2_pos (Z.pos p) ltac:(lia)).
    apply (Hnz s); unfold emin; try lia; reflexivity.
  - pose proof (binary_round_sign 24 128 false p 0 s m e ltac:(lia) ltac:(lia) E). subst s.
    exists m, e. split; [reflexivity |]. split; [exact Hv |].
    pose proof (binary_round_magnitude 24 128 false p 0 false m e
                  ltac:(lia) ltac:(lia) ltac:(unfold emin; lia) E).
    pose proof (Zdigits2_le_of_lt (Z.pos p) 31 ltac:(lia) ltac:(lia)). lia.
Qed.

Lemma shl_align_value m e ez :
  ez <= e -> -149 <= ez ->
  Z.pos (fst (shl_align m e ez)) * 2 ^ (ez + 149) = Z.pos m * 2 ^ (e + 149).
Proof.
  intros Hle He. destruct (shl_align_spec m e ez) as [_ ->].
  replace (Z.min e ez) with ez by lia.
  rewrite <- Z.mul_assoc, <- Z.pow_add_r by lia. do 2 f_equal. lia.
Qed.

(** The difference of an [int] and a finite [float] is a valid finite
    [float], and never the negative zero. *)
Lemma fsub_int_good i j :
  0 <= i < 2 ^ 31 ->
  valid_binary 24 128 j = true -> is_finite j = true ->
  good (fsub (float_of_int i) j).
Proof.
  intros Hi Hv Hf.
  destruct (Z.eq_dec i 0) as [-> | Hne].
  - change (float_of_int 0) with (S754_zero false).
    destruct j as [[|] | | | sj mj ej]; try discriminate;
      repeat split; try reflexivity; try discriminate. exact Hv.
  - destruct (float_of_int_pos i ltac:(lia)) as (mx & ex & -> & Hvx & Hmag).
    destruct j as [sj | | | sj mj ej]; try discriminate.
    + repeat split; try assumption; try reflexivity. discriminate.
    + destruct (valid_finite_inv 24 128 _ _ _ ltac:(lia) Hvx) as (_ & _ & _ & Hex).
      destruct (valid_finite_inv 24 128 _ _ _ ltac:(lia) Hv) as (_ & _ & _ & Hej).
      unfold emin in Hex, Hej.
      unfold fsub, SFsub. cbv zeta.
      set (ez := Z.min ex ej).
      pose proof (shl_align_value mx ex ez ltac:(lia) ltac:(lia)) as HX.
      pose proof (shl_align_value mj ej ez ltac:(lia) ltac:(lia)) as HY.
      set (X := Z.pos (fst (shl_align mx ex ez))) in *.
      set (Y := Z.pos (fst (shl_align mj ej ez))) in *.
      pose proof (magnitude_value_bound mx ex 32 Hmag ltac:(lia)) as HXb.
      pose proof (valid_value_bound sj mj ej Hv) as HYb.
      pose proof (pow2_pos (ez + 149) ltac:(lia)) as Hpz.
      assert (Hbound : forall p, Z.pos p <= X + Y ->
        Z.pos p * 2 ^ (ez - emin 24 128) + 2 ^ (128 - 24 - 1 - emin 24 128)
          < 2 ^ (128 - emin 24 128)).
      { intros p Hp. unfold emin.
        replace (ez - (3 - 128 - 24)) with (ez + 149) by lia.
        assert (Z.pos p * 2 ^ (ez + 149) <= X * 2 ^ (ez + 149) + Y * 2 ^ (ez + 149)) by nia.
        rewrite HX, HY in H. change (32 + 149) with 181 in HXb. lia. }
      assert (Hround : forall s p, Z.pos p <= X + Y -> good (binary_round 24 128 s p ez)).
      { intros s p Hp. repeat split.
        - apply binary_round_valid; lia.
        - apply binary_round_finite; try lia; [unfold emin; lia | apply Hbound; exact Hp].
        - apply binary_round_not_zero; try lia.
          unfold emin. pose proof (Zdigits2_pos (Z.pos p) ltac:(lia)). lia. }
      unfold cond_Zopp at 1.
      destruct (X - cond_Zopp sj Y) as [| p | p] eqn:E; cbn [binary_normalize].
      * repeat split; try reflexivity. discriminate.
      * apply Hround. destruct sj; simpl in E; lia.
      * apply Hround. destruct sj; simpl in E; lia.
Qed.

(** ** IEEE arithmetic: results that need no rounding *)

(** When the digits that rounding drops are all zero, the rounded number
    is the number itself. *)
Lemma binary_round_divisible s m e :
  -149 <= e ->
  let F := fexp 24 128 (Zdigits2 (Z.pos m) + e) in
  let ez := Z.min e F in
  let mz := Z.pos m * 2 ^ (e - ez) in
  (exists q, mz = q * 2 ^ (F - ez)) -> F <= 104 ->
  scaled (binary_round 24 128 s m e) =
    Some (cond_Zopp s (Z.pos m) * 2 ^ (e + 149)).
Proof.
  intros He F ez mz [q Hdiv] HF.
  destruct (binary_round_cases 24 128 s m e ltac:(lia) ltac:(lia))
    as (m' & H0 & Hq & Hhalf & Hle & _ & ->).
  pose proof (binary_round_quotient 24 128 m e ltac:(lia) ltac:(lia)) as Hquot.
  cbv zeta in Hquot.
  set (D := Zdigits2 (Z.pos m)) in *.
  fold F in Hq, Hhalf, Hquot |- *. fold ez in Hq, Hhalf, Hquot. fold mz in Hq, Hhalf, Hquot.
  assert (HD : 0 < D) by (apply Zdigits2_pos; lia).
  assert (HFdef : F = Z.max (D + e - 24) (-149)) by reflexivity.
  specialize (Hquot ltac:(lia)).
  set (n := F - ez) in *.
  assert (Hn : 0 <= n) by (unfold n, ez; lia).
  pose proof (pow2_pos n Hn) as HP.
  assert (Hdivq : mz / 2 ^ n = q) by (rewrite Hdiv; apply Z.div_mul; lia).
  rewrite Hdivq in Hq, Hquot.
  assert (Em : m' = q) by nia. subst m'.
  assert (Hq24 : q < 2 ^ 24).
  { apply Z.lt_le_trans with (2 ^ (D + e - F)); [lia |].
    apply Z.pow_le_mono_r; lia. }
  assert (Hqpos : 0 < q).
  { pose proof (pow2_pos (D + e - F - 1) ltac:(lia)). lia. }
  destruct (Z.eqb_spec q 0); [lia |].
  destruct (Z.ltb_spec q (2 ^ 24)); [| lia].
  destruct (Z.leb_spec F (128 - 24)); [| lia].
  cbn [scaled]. f_equal. rewrite Z2Pos.id by lia.
  assert (Hez : -149 <= ez) by (unfold ez; lia).
  assert (Hval : q * 2 ^ (F + 149) = Z.pos m * 2 ^ (e + 149)).
  { replace (F + 149) with (n + (ez + 149)) by (unfold n; lia).
    replace (e + 149) with ((e - ez) + (ez + 149)) by lia.
    rewrite (Z.pow_add_r 2 n) by lia.
    rewrite (Z.pow_add_r 2 (e - ez)) by lia.
    rewrite !Z.mul_assoc. unfold mz in Hdiv. rewrite Hdiv. reflexivity. }
  destruct s; cbn [cond_Zopp]; [| exact Hval].
  rewrite !Z.mul_opp_l. f_equal. exact Hval.
Qed.

(** A mantissa of at most 24 digits is not rounded. *)
Lemma binary_round_fits s m e :
  -149 <= e -> Zdigits2 (Z.pos m) <= 24 -> Zdigits2 (Z.pos m) + e <= 128 ->
  scaled (binary_round 24 128 s m e) =
    Some (cond_Zopp s (Z.pos m) * 2 ^ (e + 149)).
Proof.
  intros He Hd Hmag.
  pose proof (Zdigits2_pos (Z.pos m) ltac:(lia)) as HD.
  apply binary_round_divisible; [exact He | | unfold fexp, emin; lia].
  exists (Z.pos m * 2 ^ (e - Z.min e (fexp 24 128 (Zdigits2 (Z.pos m) + e)))).
  replace (fexp 24 128 (Zdigits2 (Z.pos m) + e) -
           Z.min e (fexp 24 128 (Zdigits2 (Z.pos m) + e))) with 0
    by (unfold fexp, emin; lia).
  lia.
Qed.

(** A number that some [float] stands for is not rounded. *)
Lemma binary_round_representable s m e sx mx ex :
  -149 <= e -> valid_binary 24 128 (S754_finite sx mx ex) = true ->
  Z.pos mx * 2 ^ (ex + 149) = Z.pos m * 2 ^ (e + 149) ->
  scaled (binary_round 24 128 s m e) =
    Some (cond_Zopp s (Z.pos m) * 2 ^ (e + 149)).
Proof.
  intros He Hv Hval.
  destruct (valid_finite_inv 24 128 sx mx ex ltac:(lia) Hv) as (Hc & Hb & Hd & Hex).
  unfold emin in Hex.
  assert (Hmag : Zdigits2 (Z.pos mx) + ex = Zdigits2 (Z.pos m) + e).
  { pose proof (f_equal Zdigits2 Hval) as E.
    rewrite !Zdigits2_mul_pow2 in E by lia. lia. }
  assert (HF : fexp 24 128 (Zdigits2 (Z.pos m) + e) = ex) by (rewrite <- Hmag; exact Hc).
  apply binary_round_divisible; [exact He | | lia].
  rewrite HF. exists (Z.pos mx).
  set (ez := Z.min e ex).
  assert (Hez : -149 <= ez) by (unfold ez; lia).
  pose proof (pow2_pos (ez + 149) ltac:(lia)) as HP.
  apply Z.mul_reg_r with (2 ^ (ez + 149)); [lia |].
  rewrite <- !Z.mul_assoc, <- !Z.pow_add_r by (unfold ez; lia).
  replace (e - ez + (ez + 149)) with (e + 149) by lia.
  replace (ex - ez + (ez + 149)) with (ex + 149) by lia.
  symmetry. exact Hval.
Qed.

Lemma binary_normalize_representable M e x :
  -149 <= e -> valid_binary 24 128 x = true ->
  scaled x = Some (M * 2 ^ (e + 149)) ->
  scaled (binary_normalize 24 128 M e false) = Some (M * 2 ^ (e + 149)).
Proof.
  intros He Hv Hx.
  pose proof (pow2_pos (e + 149) ltac:(lia)) as HP.
  destruct M as [| p | p]; cbn [binary_normalize]; [reflexivity | |].
  - destruct x as [sx | sx | | sx mx ex]; try discriminate; cbn [scaled] in Hx.
    + injection Hx as Hx. lia.
    + injection Hx as Hx.
      destruct (valid_finite_inv 24 128 sx mx ex ltac:(lia) Hv) as (_ & _ & _ & Hex).
      unfold emin in Hex. pose proof (pow2_pos (ex + 149) ltac:(lia)).
      destruct sx; cbn [cond_Zopp] in Hx; [rewrite Pos2Z.opp_pos in Hx; nia |].
      apply (binary_round_representable false p e false mx ex He Hv Hx).
  - destruct x as [sx | sx | | sx mx ex]; try discriminate; cbn [scaled] in Hx.
    + injection Hx as Hx. lia.
    + injection Hx as Hx.
      destruct (valid_finite_inv 24 128 sx mx ex ltac:(lia) Hv) as (_ & _ & _ & Hex).
      unfold emin in Hex. pose proof (pow2_pos (ex + 149) ltac:(lia)).
      destruct sx; cbn [cond_Zopp] in Hx; [| nia].
      rewrite Pos2Z.opp_pos in Hx.
      rewrite (binary_round_representable true p e true mx ex He Hv) by lia.
      reflexivity.
Qed.

(** An [int] below [2 ^ 24] is converted without rounding. *)
Lemma float_of_int_exact i :
  0 <= i < 2 ^ 24 ->
  valid_binary 24 128 (float_of_int i) = true /\
  scaled (float_of_int i) = Some (i * 2 ^ 149).
Proof.
  intros Hi. unfold float_of_int.
  destruct i as [| p | p]; try lia; cbn [binary_normalize].
  - split; reflexivity.
  - split; [apply binary_round_valid; lia |].
    pose proof (Zdigits2_le_of_lt (Z.pos p) 24 ltac:(lia) ltac:(lia)).
    rewrite binary_round_fits by lia. reflexivity.
Qed.

(** A difference that some [float] stands for is formed without rounding. *)
Lemma fsub_exact x y z a b :
  valid_binary 24 128 x = true -> valid_binary 24 128 y = true ->
  valid_binary 24 128 z = true ->
  scaled x = Some a -> scaled y = Some b -> scaled z = Some (a - b) ->
  scaled (fsub x y) = Some (a - b).
Proof.
  intros Hvx Hvy Hvz Hx Hy Hz.
  destruct x as [sx | sx | | sx mx ex], y as [sy | sy | | sy my ey];
    try discriminate; cbn [scaled] in Hx, Hy; injection Hx as <-; injection Hy as <-.
  - destruct sx, sy; reflexivity.
  - unfold fsub, SFsub. cbn [scaled]. f_equal.
    destruct sy; cbn [negb cond_Zopp]; rewrite ?Pos2Z.opp_pos; lia.
  - unfold fsub, SFsub. cbn [scaled]. f_equal. lia.
  - destruct (valid_finite_inv 24 128 _ _ _ ltac:(lia) Hvx) as (_ & _ & _ & Hex).
    destruct (valid_finite_inv 24 128 _ _ _ ltac:(lia) Hvy) as (_ & _ & _ & Hey).
    unfold emin in Hex, Hey.
    unfold fsub, SFsub. cbv zeta.
    set (ez := Z.min ex ey).
    pose proof (shl_align_value mx ex ez ltac:(lia) ltac:(lia)) as HX.
    pose proof (shl_align_value my ey ez ltac:(lia) ltac:(lia)) as HY.
    set (X := Z.pos (fst (shl_align mx ex ez))) in *.
    set (Y := Z.pos (fst (shl_align my ey ez))) in *.
    assert (E : cond_Zopp sx (Z.pos mx) * 2 ^ (ex + 149) -
                cond_Zopp sy (Z.pos my) * 2 ^ (ey + 149) =
                (cond_Zopp sx X - cond_Zopp sy Y) * 2 ^ (ez + 149)).
    { rewrite Z.mul_sub_distr_r.
      destruct sx, sy; cbn [cond_Zopp]; rewrite ?Pos2Z.opp_pos; lia. }
    rewrite E in Hz |- *.
    apply (binary_normalize_representable _ ez z); [lia | exact Hvz | exact Hz].
Qed.

(** ** IEEE arithmetic: the change of sign *)

Section Sign.

Variables prec emax : Z.

Lemma binary_round_aux_opp s m e l :
  binary_round_aux prec emax (negb s) m e l =
  SFopp (binary_round_aux prec emax s m e l).
Proof.
  unfold binary_round_aux.
  destruct (shr_fexp prec emax m e l) as [mrs e'].
  destruct (shr_fexp prec emax _ e' loc_Exact) as [mrs' e''].
  destruct (shr_m mrs'); simpl; try reflexivity.
  destruct (e'' <=? emax - prec); reflexivity.
Qed.

Lemma binary_round_opp s m e :
  binary_round prec emax (negb s) m e = SFopp (binary_round prec emax s m e).
Proof.
  unfold binary_round.
  destruct (shl_align m e _) as [mz ez]. apply binary_round_aux_opp.
Qed.

Lemma SFmul_opp_l x y :
  SFmul prec emax (SFopp x) y = SFopp (SFmul prec emax x y).
Proof.
  destruct x, y; simpl; rewrite <- ?negb_xorb_l; try reflexivity.
  apply binary_round_aux_opp.
Qed.

Lemma SFmul_opp_r x y :
  SFmul prec emax x (SFopp y) = SFopp (SFmul prec emax x y).
Proof.
  destruct x, y; simpl; rewrite <- ?negb_xorb_r; try reflexivity.
  apply binary_round_aux_opp.
Qed.

Lemma SFmul_opp_opp x y :
  SFmul prec emax (SFopp x) (SFopp y) = SFmul prec emax x y.
Proof.
  rewrite SFmul_opp_l, SFmul_opp_r. destruct (SFmul prec emax x y); simpl;
    rewrite ?negb_involutive; reflexivity.
Qed.

Lemma binary_normalize_opp m e :
  opposite (binary_normalize prec emax m e false)
           (binary_normalize prec emax (- m) e false).
Proof.
  destruct m as [| m | m]; simpl.
  - right. split; reflexivity.
  - left. apply (binary_round_opp false).
  - left. change false with (negb true). rewrite binary_round_opp.
    destruct (binary_round prec emax true m e); simpl; reflexivity.
Qed.

Lemma SFadd_opposite a a' t :
  opposite a a' ->
  opposite (SFadd prec emax a t) (SFadd prec emax a' (SFopp t)).
Proof.
  intros [-> | [Ha Ha']].
  - destruct a as [sa | sa | | sa ma ea], t as [st | st | | st mt et];
      try (left; reflexivity);
      try (destruct sa, st; simpl; (left; reflexivity) || (right; split; reflexivity)).
    unfold SFadd, SFopp.
    match goal with
    | |- opposite (binary_normalize _ _ ?u _ _) (binary_normalize _ _ ?w _ _) =>
        replace w with (- u)
    end.
    + apply binary_normalize_opp.
    + destruct sa, st; simpl; lia.
  - destruct a as [sa | | |]; try discriminate.
    destruct a' as [sa' | | |]; try discriminate.
    destruct t as [st | st | | st mt et]; try (left; reflexivity).
    right. destruct sa, sa', st; split; reflexivity.
Qed.

Lemma SFmul_opposite c x y :
  opposite x y -> opposite (SFmul prec emax c x) (SFmul prec emax c y).
Proof.
  intros [-> | [Hx Hy]].
  - left. apply SFmul_opp_r.
  - destruct x as [sx | | |]; try discriminate.
    destruct y as [sy | | |]; try discriminate.
    destruct c as [sc | sc | | sc mc ec]; simpl;
      try (left; reflexivity); right; split; reflexivity.
Qed.

Lemma SFmul_square_opposite x y :
  opposite x y -> SFmul prec emax y y = SFmul prec emax x x.
Proof.
  intros [-> | [Hx Hy]].
  - apply SFmul_opp_opp.
  - destruct x as [sx | | |]; try discriminate.
    destruct y as [sy | | |]; try discriminate.
    destruct sx, sy; reflexivity.
Qed.

End Sign.

Lemma to_double_opp x : to_double (SFopp x) = SFopp (to_double x).
Proof. destruct x; simpl; try reflexivity. apply binary_round_opp. Qed.

Lemma to_double_opposite x y : opposite x y -> opposite (to_double x) (to_double y).
Proof.
  intros [-> | [Hx Hy]].
  - left. apply to_double_opp.
  - destruct x as [sx | | |]; try discriminate.
    destruct y as [sy | | |]; try discriminate.
    right. split; reflexivity.
Qed.

Lemma probability_opposite z z' p p' m m' :
  opposite z z' -> opposite p p' -> opposite m m' ->
  probability z' p' m' = probability z p m.
Proof.
  intros Hz Hp Hm. unfold probability, pow_2, dmul, fmul.
  rewrite (SFmul_square_opposite _ _ _ _ (to_double_opposite _ _ Hp)).
  rewrite (SFmul_square_opposite _ _ _ _ (to_double_opposite _ _ Hm)).
  rewrite (SFmul_square_opposite _ _ _ _
             (to_double_opposite _ _ (SFmul_opposite _ _ (float_of_int 2) _ _ Hz))).
  reflexivity.
Qed.

(** ** Reading and writing cells *)

Lemma index_Some i : 0 <= i -> index i = Some (Z.to_nat i).
Proof. intros H. unfold index. destruct (Z.leb_spec 0 i); [reflexivity | lia]. Qed.

Lemma index_inv i n : index i = Some n -> 0 <= i /\ n = Z.to_nat i.
Proof.
  unfold index. destruct (Z.leb_spec 0 i) as [Hle | Hlt]; intros E; inversion E.
  split; [assumption | reflexivity].
Qed.

Lemma read_shaped n m i k :
  shaped n m -> 0 <= i < n -> 0 <= k < n -> is_Some (read m i k).
Proof.
  intros [Hl Hr] Hi Hk. unfold read.
  rewrite !index_Some by lia. simpl.
  destruct (lookup_lt_is_Some_2 m (Z.to_nat i)) as [row Hrow]; [lia |].
  rewrite Hrow. simpl.
  apply lookup_lt_is_Some_2.
  rewrite Forall_lookup in Hr. rewrite (Hr _ _ Hrow). lia.
Qed.

Lemma write_Some m i k v :
  is_Some (read m i k) -> is_Some (write m i k v).
Proof.
  unfold read, write. intros [x Hx].
  destruct (index i) as [ni |]; [| discriminate]. simpl in *.
  destruct (index k) as [nk |]; [| discriminate]. simpl in *.
  destruct (m !! ni) as [row |]; [| discriminate]. simpl in *.
  rewrite Hx. simpl. eauto.
Qed.

Lemma write_shaped n m i k v m' :
  write m i k v = Some m' -> shaped n m -> shaped n m'.
Proof.
  unfold write. intros H [Hl Hr].
  destruct (index i) as [ni |]; [| discriminate]. simpl in H.
  destruct (index k) as [nk |]; [| discriminate]. simpl in H.
  destruct (m !! ni) as [row |] eqn:Hrow; [| discriminate]. simpl in H.
  destruct (row !! nk); [| discriminate]. simpl in H.
  inversion H; subst m'. split.
  - rewrite length_insert. assumption.
  - apply Forall_insert; [assumption |].
    rewrite length_insert. rewrite Forall_lookup in Hr. apply (Hr _ _ Hrow).
Qed.

Lemma read_write_same m i k v m' :
  write m i k v = Some m' -> read m' i k = Some v.
Proof.
  unfold write, read. intros H.
  destruct (index i) as [ni |]; [| discriminate]. simpl in *.
  destruct (index k) as [nk |]; [| discriminate]. simpl in *.
  destruct (m !! ni) as [row |] eqn:Hrow; [| discriminate]. simpl in *.
  destruct (row !! nk) eqn:Hc; [| discriminate]. simpl in *.
  inversion H; subst m'.
  rewrite list_lookup_insert_eq by (eapply lookup_lt_Some; eassumption). simpl.
  apply list_lookup_insert_eq. eapply lookup_lt_Some; eassumption.
Qed.

Lemma read_write_other m i k v m' i' k' :
  write m i k v = Some m' -> 0 <= i' -> 0 <= k' -> (i', k') <> (i, k) ->
  read m' i' k' = read m i' k'.
Proof.
  unfold write, read. intros H Hi' Hk' Hne.
  destruct (index i) as [ni |] eqn:Ei; [| discriminate]. simpl in *.
  destruct (index k) as [nk |] eqn:Ek; [| discriminate]. simpl in *.
  destruct (m !! ni) as [row |] eqn:Hrow; [| discriminate]. simpl in *.
  destruct (row !! nk) eqn:Hc; [| discriminate]. simpl in *.
  inversion H; subst m'.
  apply index_inv in Ei as [Hi ->]. apply index_inv in Ek as [Hk ->].
  rewrite !index_Some by assumption. simpl.
  destruct (decide (Z.to_nat i' = Z.to_nat i)) as [Heq | Hn].
  - rewrite Heq, Hrow.
    rewrite list_lookup_insert_eq by (eapply lookup_lt_Some; eassumption). simpl.
    apply list_lookup_insert_ne. intros Hk2. apply Hne.
    f_equal; apply Z2Nat.inj; auto.
  - rewrite list_lookup_insert_ne by auto. reflexivity.
Qed.

(** ** Symbolic execution *)

Lemma name_eqb_spec a b : reflect (a = b) (name_eqb a b).
Proof. destruct a, b; simpl; constructor; congruence. Qed.

Lemma sel_upd_same a m s : sel a (upd a m s) = m.
Proof. destruct a; reflexivity. Qed.

Lemma sel_upd_other a b m s : a <> b -> sel b (upd a m s) = sel b s.
Proof. destruct a, b; intros H; try reflexivity; congruence. Qed.

Lemma repr_same n s g g' : repr n s g -> same n g g' -> repr n s g'.
Proof.
  intros H Hs a. destruct (H a) as [Hsh Hr]. split; [assumption |].
  intros i k Hi Hk. rewrite Hr by assumption. f_equal. apply Hs; assumption.
Qed.

Lemma same_refl n g : same n g g.
Proof. intros a i k _ _. reflexivity. Qed.

Lemma exec_same {A} n g1 g (m : Cmd A) a g' g2 :
  same n g1 g -> exec n g m a g' -> same n g' g2 -> exec n g1 m a g2.
Proof.
  intros H1 He H2 s Hs.
  destruct (He s (repr_same _ _ _ _ Hs H1)) as (s' & Hm & Hs').
  exists s'. split; [assumption |]. eapply repr_same; eassumption.
Qed.

Lemma exec_ret {A} n g (a : A) : exec n g (ret a) a g.
Proof. intros s Hs. exists s. split; [reflexivity | assumption]. Qed.

Lemma exec_bind {A B} n g (m : Cmd A) a g1 (k : A -> Cmd B) b g2 :
  exec n g m a g1 -> exec n g1 (k a) b g2 -> exec n g (bind m k) b g2.
Proof.
  intros Hm Hk s Hs.
  destruct (Hm s Hs) as (s1 & E1 & Hs1).
  destruct (Hk s1 Hs1) as (s2 & E2 & Hs2).
  exists s2. split; [| assumption]. unfold bind. rewrite E1. assumption.
Qed.

Lemma exec_load n g a i k :
  0 <= i < n -> 0 <= k < n -> exec n g (load a i k) (g a i k) g.
Proof.
  intros Hi Hk s Hs. exists s. split; [| assumption].
  unfold load. destruct (Hs a) as [_ Hr]. rewrite (Hr i k Hi Hk). reflexivity.
Qed.

Lemma exec_store n g a i k v :
  0 <= i < n -> 0 <= k < n -> exec n g (store a i k v) tt (poke g a i k v).
Proof.
  intros Hi Hk s Hs. unfold store.
  destruct (Hs a) as [Hsh Hr].
  destruct (write_Some (sel a s) i k v) as [m' Hw].
  { rewrite (Hr i k Hi Hk). eauto. }
  rewrite Hw. exists (upd a m' s). split; [reflexivity |].
  intros b. destruct (name_eqb_spec a b) as [<- | Hab].
  - rewrite sel_upd_same. split; [eapply write_shaped; eassumption |].
    intros i' k' Hi' Hk'. unfold poke.
    destruct (name_eqb_spec a a) as [_ | Hn]; [| congruence]. simpl.
    destruct (Z.eqb_spec i i') as [<- | Hni]; simpl.
    + destruct (Z.eqb_spec k k') as [<- | Hnk]; simpl.
      * eapply read_write_same; eassumption.
      * rewrite (read_write_other _ _ _ _ _ _ _ Hw) by (try lia; congruence).
        apply Hr; assumption.
    + rewrite (read_write_other _ _ _ _ _ _ _ Hw) by (try lia; congruence).
      apply Hr; assumption.
  - rewrite sel_upd_other by assumption. destruct (Hs b) as [Hshb Hrb].
    split; [assumption |]. intros i' k' Hi' Hk'. unfold poke.
    destruct (name_eqb_spec a b) as [-> | _]; [congruence |]. simpl.
    apply Hrb; assumption.
Qed.

Lemma exec_for_loop n (G : Z -> grid) body k :
  forall lo,
  (forall i, lo <= i < lo + Z.of_nat k -> exec n (G i) (body i) tt (G (i + 1))) ->
  exec n (G lo) (for_loop k lo body) tt (G (lo + Z.of_nat k)).
Proof.
  induction k as [| k IH]; intros lo Hbody.
  - replace (lo + Z.of_nat 0) with lo by lia. apply exec_ret.
  - simpl for_loop. eapply exec_bind.
    + apply Hbody. lia.
    + replace (lo + Z.of_nat (S k)) with ((lo + 1) + Z.of_nat k) by lia.
      apply IH. intros i Hi. apply Hbody. lia.
Qed.

(** The rule of the counted loop, with the description [G i] of the store
    on entry to the iteration [i]. *)
Lemma exec_for n (G : Z -> grid) body lo hi :
  lo <= hi ->
  (forall i, lo <= i < hi -> exec n (G i) (body i) tt (G (i + 1))) ->
  exec n (G lo) (for_ lo hi body) tt (G hi).
Proof.
  intros Hle Hbody. unfold for_.
  replace hi with (lo + Z.of_nat (Z.to_nat (hi - lo))) at 2 by lia.
  apply exec_for_loop. intros i Hi. apply Hbody. lia.
Qed.

Lemma accumulate_succ {T} (add : float -> T -> float) term i init :
  0 <= i ->
  accumulate add term (Z.to_nat (i + 1)) init =
  add (accumulate add term (Z.to_nat i) init) (term i).
Proof.
  intros Hi. replace (Z.to_nat (i + 1)) with (S (Z.to_nat i)) by lia.
  simpl. rewrite Z2Nat.id by assumption. reflexivity.
Qed.

(** *** Looking up a described store *)

Lemma exec_load_bind {B} n g a i k (K : float -> Cmd B) b g' :
  0 <= i < n -> 0 <= k < n ->
  (forall v, v = g a i k -> exec n g (K v) b g') ->
  exec n g (bind (load a i k) K) b g'.
Proof.
  intros Hi Hk H. eapply exec_bind; [apply exec_load; assumption |].
  apply H. reflexivity.
Qed.

Lemma poke_eq g a i k v : poke g a i k v a i k = v.
Proof.
  unfold poke. destruct (name_eqb_spec a a); [| congruence].
  rewrite !Z.eqb_refl. reflexivity.
Qed.

Lemma poke_name g a i k v b i' k' :
  name_eqb a b = false -> poke g a i k v b i' k' = g b i' k'.
Proof. intros H. unfold poke. rewrite H. reflexivity. Qed.

Lemma poke_cell g a i k v b i' k' :
  (i, k) <> (i', k') -> poke g a i k v b i' k' = g b i' k'.
Proof.
  intros H. unfold poke.
  destruct (Z.eqb_spec i i'); destruct (Z.eqb_spec k k'); subst;
    rewrite ?andb_false_r; try reflexivity.
  congruence.
Qed.

Lemma if_same {A} (b : bool) (x : A) : (if b then x else x) = x.
Proof. destruct b; reflexivity. Qed.

Lemma rows_done_Ef j squared_j size g0 R r c :
  rows_done j squared_j size g0 R Ef r c = g0 Ef r c.
Proof. unfold rows_done, final. apply if_same. Qed.

Lemma columns_done_Ef j squared_j size g0 R C r c :
  columns_done j squared_j size g0 R C Ef r c = g0 Ef r c.
Proof. unfold columns_done, final. apply if_same. Qed.

Lemma rows_done_todo j squared_j size g0 R a r c :
  R <= Z.min r c -> rows_done j squared_j size g0 R a r c = g0 a r c.
Proof.
  intros H. unfold rows_done. destruct (Z.ltb_spec (Z.min r c) R); [lia | reflexivity].
Qed.

Lemma columns_done_todo j squared_j size g0 R C a r c :
  R <= Z.min r c -> (Z.min r c = R -> C <= Z.max r c) ->
  columns_done j squared_j size g0 R C a r c = g0 a r c.
Proof.
  intros H1 H2. unfold columns_done.
  destruct (Z.ltb_spec (Z.min r c) R); [lia |]. simpl.
  destruct (Z.eqb_spec (Z.min r c) R); [| reflexivity]. simpl.
  destruct (Z.ltb_spec (Z.max r c) C); [lia | reflexivity].
Qed.

(** Simplification of the value a load returns. *)
Ltac lookup_in H :=
  unfold diagonal_upto, pair_upto in H;
  repeat first
    [ rewrite poke_eq in H
    | rewrite poke_name in H by reflexivity
    | rewrite poke_cell in H by (intros ?E; inversion E; lia)
    | rewrite rows_done_Ef in H
    | rewrite columns_done_Ef in H
    | rewrite rows_done_todo in H by lia
    | rewrite columns_done_todo in H by lia ].

(** One step of symbolic execution. *)
Ltac exec_step :=
  lazymatch goal with
  | |- exec _ _ (bind (load _ _ _) _) _ _ =>
      let v := fresh "v" in
      let Hv := fresh "Hv" in
      apply exec_load_bind; [lia | lia | intros v Hv; lookup_in Hv; subst v]
  | |- exec _ _ (bind (store _ _ _ _) _) _ _ =>
      eapply exec_bind; [apply exec_store; lia | cbv beta]
  | |- exec _ _ (store _ _ _ _) _ _ => apply exec_store; lia
  | |- exec _ _ (ret _) _ _ => apply exec_ret
  | |- exec _ _ (bind (add_double _ _ _ _) _) _ _ =>
      eapply exec_bind; [unfold add_double | cbv beta]
  | |- exec _ _ (bind (add_float _ _ _ _) _) _ _ =>
      eapply exec_bind; [unfold add_float | cbv beta]
  | |- exec _ _ (add_double _ _ _ _) _ _ => unfold add_double
  | |- exec _ _ (add_float _ _ _ _) _ _ => unfold add_float
  end.

(** Case analysis on the comparisons of a goal about cells. *)
Ltac cases_on_cells :=
  repeat match goal with
  | |- context [Z.eqb ?x ?y] => destruct (Z.eqb_spec x y); try subst
  | |- context [Z.ltb ?x ?y] => destruct (Z.ltb_spec x y)
  | |- context [name_eqb ?x ?y] => destruct (name_eqb_spec x y)
  end.

Section Closed_form_correct.

Variables (j squared_j : float) (size : Z) (g0 : grid).

Lemma diagonal_step_exec R n :
  0 <= R < size -> 0 <= n < size - 1 ->
  exec size (diagonal_upto j squared_j size g0 R n)
    (diagonal_step j squared_j R n) tt
    (diagonal_upto j squared_j size g0 R (n + 1)).
Proof.
  intros HR Hn.
  eapply exec_same; [apply same_refl | | ].
  - unfold diagonal_step. repeat exec_step.
  - intros a i k Hi Hk.
    unfold diagonal_upto, z_diag_upto, p_diag_upto.
    rewrite !accumulate_succ by lia.
    unfold poke. destruct a; simpl; cases_on_cells; simpl; reflexivity.
Qed.

Lemma pair_step_exec R C n :
  0 <= R < C -> C < size -> 0 <= n < size - 1 ->
  exec size (pair_upto j squared_j size g0 R C n)
    (pair_step j squared_j R C n) tt
    (pair_upto j squared_j size g0 R C (n + 1)).
Proof.
  intros HR HC Hn.
  eapply exec_same; [apply same_refl | | ].
  - unfold pair_step. repeat exec_step.
  - intros a i k Hi Hk.
    unfold pair_upto, z_upto, p_upto, m_upto.
    rewrite !accumulate_succ by lia.
    unfold poke. destruct a; simpl; cases_on_cells; simpl; reflexivity.
Qed.

Lemma pair_body_exec R C :
  0 <= R < C -> C < size ->
  exec size (columns_done j squared_j size g0 R C)
    (pair_body j squared_j size R C) tt
    (columns_done j squared_j size g0 R (C + 1)).
Proof.
  intros HR HC.
  eapply exec_same; [apply same_refl | | ].
  - unfold pair_body. repeat exec_step.
    eapply exec_bind.
    { eapply exec_same; [| apply (exec_for size (pair_upto j squared_j size g0 R C));
                           [lia | intros i Hi; apply pair_step_exec; lia] | apply same_refl].
      intros a i k Hi Hk. unfold pair_upto, z_upto, p_upto, m_upto, z_term, mqn.
      simpl accumulate. unfold poke.
      destruct a; simpl; cases_on_cells; simpl;
        rewrite ?columns_done_todo by lia; reflexivity. }
    repeat exec_step.
  - intros a i k Hi Hk.
    unfold pair_upto, poke, columns_done, final, t_upper, z_upper, p_upper, m_upper.
    destruct a; simpl; cases_on_cells; simpl; try reflexivity; lia.
Qed.

Lemma row_body_exec R :
  0 <= R < size ->
  exec size (rows_done j squared_j size g0 R)
    (row_body j squared_j size R) tt
    (rows_done j squared_j size g0 (R + 1)).
Proof.
  intros HR.
  eapply exec_same; [apply same_refl | | ].
  - unfold row_body. repeat exec_step.
    eapply exec_bind.
    { eapply exec_same; [| apply (exec_for size (diagonal_upto j squared_j size g0 R));
                           [lia | intros i Hi; apply diagonal_step_exec; lia] | apply same_refl].
      intros a i k Hi Hk. unfold diagonal_upto, z_diag_upto, p_diag_upto, z_diag_term, mqn.
      simpl accumulate. unfold poke.
      destruct a; simpl; cases_on_cells; simpl;
        rewrite ?rows_done_todo by lia; reflexivity. }
    repeat exec_step.
    eapply exec_same; [| apply (exec_for size (columns_done j squared_j size g0 R));
                           [lia | intros i Hi; apply pair_body_exec; lia] | apply same_refl].
    intros a i k Hi Hk.
    unfold diagonal_upto, poke, columns_done, rows_done, final, z_diag, p_diag.
    destruct a; simpl; cases_on_cells; simpl; try reflexivity; lia.
  - intros a i k Hi Hk. unfold columns_done, rows_done.
    cases_on_cells; simpl; try reflexivity; lia.
Qed.

(** The whole function: on a store of [size] by [size] matrices it
    returns, with the value of the top-left cell of [j_z], and leaves the
    store [final]. *)
Lemma get_exec :
  1 <= size ->
  exec size g0 (get j squared_j size)
    (final j squared_j size g0 Jz 0 0) (final j squared_j size g0).
Proof.
  intros Hsize. unfold get.
  eapply exec_bind.
  { eapply exec_same; [| apply (exec_for size (rows_done j squared_j size g0));
                         [lia | intros i Hi; apply row_body_exec; lia] |].
    - intros a i k Hi Hk. rewrite rows_done_todo by lia. reflexivity.
    - intros a i k Hi Hk. unfold rows_done.
      destruct (Z.ltb_spec (Z.min i k) size); [reflexivity | lia]. }
  cbv beta.
  repeat (apply exec_load_bind; [lia | lia | intros ? ->]).
  simpl hd. apply exec_ret.
Qed.

End Closed_form_correct.

(** ** From a store to its description *)

Lemma repr_contents n s : well_formed n s -> repr n s (contents s).
Proof.
  intros H a. split; [apply H |].
  intros i k Hi Hk. unfold contents.
  destruct (read_shaped n (sel a s) i k (H a) Hi Hk) as [x Hx].
  rewrite Hx. reflexivity.
Qed.

Lemma shaped_zero_matrix n : shaped n (zero_matrix n).
Proof.
  unfold shaped, zero_matrix. split.
  - apply length_replicate.
  - apply Forall_replicate. apply length_replicate.
Qed.

Lemma read_zero_matrix n i k :
  0 <= i < n -> 0 <= k < n -> read (zero_matrix n) i k = Some zero.
Proof.
  intros Hi Hk. unfold read, zero_matrix. rewrite !index_Some by lia. simpl.
  rewrite lookup_replicate_2 by lia. simpl.
  apply lookup_replicate_2. lia.
Qed.

(** A shaped matrix is determined by its cells. *)
Lemma shaped_ext n (m m' : matrix) :
  shaped n m -> shaped n m' ->
  (forall i k, 0 <= i < n -> 0 <= k < n -> read m i k = read m' i k) ->
  m = m'.
Proof.
  intros [Hl Hr] [Hl' Hr'] H.
  apply list_eq_same_length with (Z.to_nat n); [assumption | assumption |].
  intros i row row' Hi Hrow Hrow'.
  rewrite Forall_lookup in Hr, Hr'.
  apply list_eq_same_length with (Z.to_nat n);
    [apply (Hr' _ _ Hrow') | apply (Hr _ _ Hrow) |].
  intros k x x' Hk Hx Hx'.
  specialize (H (Z.of_nat i) (Z.of_nat k) ltac:(lia) ltac:(lia)).
  unfold read in H. rewrite !index_Some in H by lia. simpl in H.
  rewrite !Nat2Z.id in H. rewrite Hrow, Hrow' in H. simpl in H.
  congruence.
Qed.

(** The function returns on every store of [size] by [size] matrices, and
    the store it leaves is [final]. *)
Lemma get_final j squared_j size s :
  1 <= size -> well_formed size s ->
  exists s',
    get j squared_j size s =
      Some (final j squared_j size (contents s) Jz 0 0, s') /\
    repr size s' (final j squared_j size (contents s)).
Proof.
  intros Hsize Hwf.
  apply (get_exec j squared_j size (contents s) Hsize s).
  apply repr_contents. assumption.
Qed.

Lemma repr_read n s g i k :
  repr n s g -> 0 <= i < n -> 0 <= k < n ->
  read (j_z s) i k = Some (g Jz i k) /\
  read (j_plus s) i k = Some (g Jplus i k) /\
  read (j_minus s) i k = Some (g Jminus i k) /\
  read (transition_probability s) i k = Some (g Tp i k) /\
  read (eigenfunctions s) i k = Some (g Ef i k).
Proof.
  intros H Hi Hk.
  repeat split;
    [ destruct (H Jz) as [_ Hr] | destruct (H Jplus) as [_ Hr]
    | destruct (H Jminus) as [_ Hr] | destruct (H Tp) as [_ Hr]
    | destruct (H Ef) as [_ Hr] ];
    apply (Hr i k Hi Hk).
Qed.

Lemma zeroed_contents n s :
  j_z s = zero_matrix n -> j_plus s = zero_matrix n ->
  j_minus s = zero_matrix n -> transition_probability s = zero_matrix n ->
  zeroed n (contents s).
Proof.
  intros Hz Hp Hm Ht a i c Ha Hi Hc. unfold contents.
  destruct a; simpl; rewrite ?Hz, ?Hp, ?Hm, ?Ht, ?read_zero_matrix by assumption;
    try reflexivity.
  congruence.
Qed.

(** ** Symmetry of the results *)

(** C1. After the call [j_z] and [transition_probability] are symmetric,
    and [j_minus[c][r] = j_plus[r][c]] for all [r] and [c], the diagonal
    included.  This holds on every store of [size] by [size] matrices,
    whatever [j], [squared_j] and the initial contents are, so in particular
    for [j = (size - 1) / 2] and zero-initialized outputs. *)
Theorem get_symmetric j squared_j size s :
  1 <= size -> well_formed size s ->
  exists v s',
    get j squared_j size s = Some (v, s') /\
    forall r c, 0 <= r < size -> 0 <= c < size ->
      (exists x, read (j_z s') r c = Some x /\ read (j_z s') c r = Some x) /\
      (exists x, read (transition_probability s') r c = Some x /\
                 read (transition_probability s') c r = Some x) /\
      (exists x, read (j_plus s') r c = Some x /\ read (j_minus s') c r = Some x).
Proof.
  intros Hsize Hwf.
  destruct (get_final j squared_j size s Hsize Hwf) as (s' & Hget & Hs').
  eexists _, s'. split; [exact Hget |].
  intros r c Hr Hc.
  destruct (repr_read size s' _ r c Hs' Hr Hc) as (Hz & Hp & _ & Ht & _).
  destruct (repr_read size s' _ c r Hs' Hc Hr) as (Hz' & _ & Hm' & Ht' & _).
  repeat split.
  - eexists. split; [exact Hz |]. rewrite Hz'. f_equal.
    unfold final. cases_on_cells; try reflexivity; lia.
  - eexists. split; [exact Ht |]. rewrite Ht'. f_equal.
    unfold final. cases_on_cells; try reflexivity; lia.
  - eexists. split; [exact Hp |]. rewrite Hm'. f_equal.
    unfold final. cases_on_cells; try reflexivity; lia.
Qed.

(** ** The transition probability *)

(** C2. For [r < c] the cell [transition_probability[r][c]] holds
    [((2 * j_z[r][c])^2 + j_plus[r][c]^2 + j_minus[r][c]^2) / 3] of the
    final cells of the three operators (the square and the quotient in
    [double], the result stored as [float]), and
    [transition_probability[c][r]] holds the same value. *)
Theorem get_transition_probability j squared_j size s :
  1 <= size -> well_formed size s ->
  exists v s',
    get j squared_j size s = Some (v, s') /\
    forall r c, 0 <= r < c -> c < size ->
      exists z p m t,
        read (j_z s') r c = Some z /\
        read (j_plus s') r c = Some p /\
        read (j_minus s') r c = Some m /\
        t = to_float
              (ddiv
                 (dadd (dadd (pow_2 (to_double (fmul (float_of_int 2) z)))
                             (pow_2 (to_double p)))
                       (pow_2 (to_double m)))
                 (double_of_int 3)) /\
        read (transition_probability s') r c = Some t /\
        read (transition_probability s') c r = Some t.
Proof.
  intros Hsize Hwf.
  destruct (get_final j squared_j size s Hsize Hwf) as (s' & Hget & Hs').
  eexists _, s'. split; [exact Hget |].
  intros r c Hr Hc.
  destruct (repr_read size s' _ r c Hs' ltac:(lia) ltac:(lia)) as (Hz & Hp & Hm & Ht & _).
  destruct (repr_read size s' _ c r Hs' ltac:(lia) ltac:(lia)) as (_ & _ & _ & Ht' & _).
  eexists _, _, _, _.
  split; [exact Hz |]. split; [exact Hp |]. split; [exact Hm |].
  split; [reflexivity |].
  split.
  - rewrite Ht. f_equal. unfold final, t_upper, probability.
    cases_on_cells; try reflexivity; lia.
  - rewrite Ht'. f_equal. unfold final, t_upper, probability.
    cases_on_cells; try reflexivity; lia.
Qed.

(** ** The case J = 1/2 *)

Example values_of_constants :
  one = float_of_int 1 /\
  half = to_float (ddiv (double_of_int 1) (double_of_int 2)) /\
  three_quarters = to_float (ddiv (double_of_int 3) (double_of_int 4)) /\
  third = to_float (ddiv (double_of_int 1) (double_of_int 3)) /\
  two_thirds = to_float (ddiv (double_of_int 2) (double_of_int 3)).
Proof. repeat split; vm_compute; reflexivity. Qed.

(** C3, as the specification states it, fails: for J = 1/2 and the
    identity eigenvectors the call does not leave [j_plus[0][1] = 1],
    [j_minus[1][0] = 1] and [transition_probability[0][1] = 2/3]. *)
Lemma spin_half_claim_fails :
  ~ exists v s',
      get half three_quarters 2 spin_half = Some (v, s') /\
      j_z s' = [[SFopp half; zero]; [zero; half]] /\
      read (j_plus s') 0 1 = Some one /\
      read (j_minus s') 1 0 = Some one /\
      read (transition_probability s') 0 1 = Some two_thirds /\
      read (transition_probability s') 1 0 = Some two_thirds.
Proof.
  intros (v & s' & Hget & _ & Hp & _).
  vm_compute in Hget. inversion Hget; subst s'; clear Hget.
  vm_compute in Hp. discriminate Hp.
Qed.

(** C3, amended.  For J = 1/2 with the identity eigenvectors and
    zero-initialized outputs the call returns [j_z[0][0] = -0.5] and leaves
    [j_z = diag(-0.5, 0.5)], [j_plus[1][0] = 1] and [j_minus[0][1] = 1] with
    every other cell of the two zero, and
    [transition_probability[0][1] = transition_probability[1][0] = 1/3]. *)
Theorem get_spin_half :
  get half three_quarters 2 spin_half =
  Some (SFopp half,
        {| j_z := [[SFopp half; zero]; [zero; half]];
           j_plus := [[zero; zero]; [one; zero]];
           j_minus := [[zero; one]; [zero; zero]];
           transition_probability := [[zero; third]; [third; zero]];
           eigenfunctions := [[one; zero]; [zero; one]] |}).
Proof. vm_compute. reflexivity. Qed.

(** ** The identity eigenbasis *)

Lemma shaped_identity_matrix n : shaped n (identity_matrix n).
Proof.
  unfold shaped, identity_matrix. split.
  - rewrite length_fmap, length_seq. reflexivity.
  - rewrite Forall_fmap. apply Forall_forall. intros i _. simpl.
    unfold identity_row. rewrite length_fmap, length_seq. reflexivity.
Qed.

Lemma read_identity_matrix n i k :
  0 <= i < n -> 0 <= k < n ->
  read (identity_matrix n) i k = Some (if i =? k then one else zero).
Proof.
  intros Hi Hk. unfold read, identity_matrix.
  rewrite !index_Some by lia. simpl.
  rewrite list_lookup_fmap, lookup_seq_lt by lia. simpl.
  unfold identity_row. rewrite list_lookup_fmap, lookup_seq_lt by lia. simpl.
  f_equal. destruct (Nat.eqb_spec (Z.to_nat i) (Z.to_nat k)); destruct (Z.eqb_spec i k);
    try reflexivity; lia.
Qed.

Lemma to_double_good x :
  good x -> is_finite (to_double x) = true /\ (is_zero (to_double x) = is_zero x).
Proof.
  intros (Hv & Hf & _). destruct x as [s | s | | s m e]; try discriminate.
  - split; reflexivity.
  - rewrite (to_double_finite s m e Hv). split; reflexivity.
Qed.

Lemma dmul_zero_good x :
  good x -> is_zero (dmul zero (to_double x)) = true.
Proof.
  intros Hx. destruct (to_double_good x Hx) as [Hf _].
  destruct (to_double x); try discriminate; reflexivity.
Qed.

Lemma add_d_zero_zero t : is_zero t = true -> add_d zero t = zero.
Proof. destruct t as [[|] | | |]; try discriminate; reflexivity. Qed.

Lemma add_d_zero_good x : good x -> add_d zero (to_double x) = x.
Proof.
  intros Hx. pose proof Hx as (Hv & Hf & Hnz). unfold add_d.
  destruct x as [[|] | s | | s m e]; try discriminate; try reflexivity; try congruence.
  change (to_double zero) with (S754_zero false).
  rewrite (to_double_finite s m e Hv). cbv zeta. cbn [dadd SFadd].
  rewrite <- (to_double_finite s m e Hv). apply to_float_to_double. exact Hv.
Qed.

Lemma add_d_good_zero x t : good x -> is_zero t = true -> add_d x t = x.
Proof.
  intros Hx Ht. pose proof Hx as (Hv & Hf & Hnz). unfold add_d.
  destruct t as [st | | |]; try discriminate.
  destruct x as [[|] | s | | s m e]; try discriminate; try congruence.
  - destruct st; reflexivity.
  - rewrite (to_double_finite s m e Hv). cbv zeta. cbn [dadd SFadd].
    rewrite <- (to_double_finite s m e Hv). apply to_float_to_double. exact Hv.
Qed.

Lemma fmul_zero_good x : good x -> is_zero (fmul zero x) = true.
Proof.
  intros (_ & Hf & _). destruct x; try discriminate; reflexivity.
Qed.

Lemma fadd_zero_zero t : is_zero t = true -> fadd zero t = zero.
Proof. destruct t as [[|] | | |]; try discriminate; reflexivity. Qed.

Lemma accumulate_zeros term n :
  (forall i, 0 <= i < Z.of_nat n -> is_zero (term i) = true) ->
  accumulate fadd term n zero = zero.
Proof.
  induction n as [| n IH]; intros H; simpl; [reflexivity |].
  rewrite IH by (intros i Hi; apply H; lia).
  apply fadd_zero_zero. apply H. lia.
Qed.

Section Identity.

Variables (j squared_j : float) (size : Z) (g : grid).

Hypothesis Hsize : 1 <= size <= 2147483647.
Hypothesis Hvalid : valid_binary prec32 emax32 j = true.
Hypothesis Hfinite : is_finite j = true.
Hypothesis Hzero : zeroed size g.
Hypothesis Hid : forall i k, 0 <= i < size -> 0 <= k < size ->
  g Ef i k = if i =? k then one else zero.

Lemma mqn_good i : 0 <= i < size -> good (mqn j i).
Proof using Hsize Hvalid Hfinite.
  intros Hi. unfold mqn. apply fsub_int_good; try assumption.
  change (2 ^ 31) with 2147483648. lia.
Qed.

Lemma z_diag_term_identity r i :
  0 <= r < size -> 0 <= i < size ->
  if i =? r then z_diag_term j g r i = to_double (mqn j i)
  else is_zero (z_diag_term j g r i) = true.
Proof using Hsize Hvalid Hfinite Hid.
  intros Hr Hi. unfold z_diag_term. rewrite Hid by assumption.
  pose proof (mqn_good i Hi) as Hg.
  destruct (i =? r).
  - change (pow_2 (to_double one)) with one_double.
    apply dmul_one_to_double. apply Hg.
  - change (pow_2 (to_double zero)) with zero.
    apply dmul_zero_good. exact Hg.
Qed.

Lemma z_diag_upto_identity r n :
  0 <= r < size -> Z.of_nat n <= size - 1 ->
  z_diag_upto j size g r n =
  if (r =? size - 1) || (r <? Z.of_nat n) then mqn j r else zero.
Proof using Hsize Hvalid Hfinite Hzero Hid.
  intros Hr. unfold z_diag_upto. induction n as [| n IH]; intros Hn.
  - cbn [accumulate]. rewrite Hzero by (try discriminate; lia).
    pose proof (z_diag_term_identity r (size - 1) Hr ltac:(lia)) as Ht.
    replace (r <? Z.of_nat 0) with false by (symmetry; apply Z.ltb_ge; lia).
    rewrite orb_false_r. rewrite (Z.eqb_sym r).
    destruct (size - 1 =? r) eqn:E.
    + apply Z.eqb_eq in E. rewrite Ht, E. apply add_d_zero_good.
      apply mqn_good. lia.
    + apply add_d_zero_zero. exact Ht.
  - cbn [accumulate]. rewrite IH by lia.
    pose proof (z_diag_term_identity r (Z.of_nat n) Hr ltac:(lia)) as Ht.
    pose proof (mqn_good r Hr) as Hg.
    destruct (Z.eqb_spec (Z.of_nat n) r) as [E | E].
    + rewrite Ht, E.
      replace (r =? size - 1) with false by (symmetry; apply Z.eqb_neq; lia).
      replace (r <? r) with false by (symmetry; apply Z.ltb_ge; lia).
      replace (r <? Z.of_nat (S n)) with true by (symmetry; apply Z.ltb_lt; lia).
      simpl. apply add_d_zero_good. exact Hg.
    + replace (r <? Z.of_nat (S n)) with (r <? Z.of_nat n).
      * destruct ((r =? size - 1) || (r <? Z.of_nat n)).
        -- apply add_d_good_zero; assumption.
        -- apply add_d_zero_zero. exact Ht.
      * destruct (Z.ltb_spec r (Z.of_nat n)); destruct (Z.ltb_spec r (Z.of_nat (S n)));
          try reflexivity; lia.
Qed.

Lemma z_term_identity r c i :
  0 <= r < size -> 0 <= c < size -> r <> c -> 0 <= i < size ->
  is_zero (z_term j g r c i) = true.
Proof using Hsize Hvalid Hfinite Hid.
  intros Hr Hc Hne Hi. unfold z_term. rewrite !Hid by assumption.
  pose proof (mqn_good i Hi) as Hg.
  destruct (Z.eqb_spec i r); destruct (Z.eqb_spec i c); try lia;
    [change (fmul one zero) with zero | change (fmul zero one) with zero
    | change (fmul zero zero) with zero]; apply fmul_zero_good; exact Hg.
Qed.

Lemma z_upper_identity r c :
  0 <= r < size -> 0 <= c < size -> r <> c -> z_upper j size g r c = zero.
Proof using Hsize Hvalid Hfinite Hzero Hid.
  intros Hr Hc Hne. unfold z_upper, z_upto.
  rewrite Hzero by (try discriminate; lia).
  rewrite fadd_zero_zero by (apply z_term_identity; lia).
  apply accumulate_zeros. intros i Hi. apply z_term_identity; lia.
Qed.

Lemma final_identity r c :
  0 <= r < size -> 0 <= c < size ->
  final j squared_j size g Jz r c = if r =? c then mqn j r else zero.
Proof using Hsize Hvalid Hfinite Hzero Hid.
  intros Hr Hc. unfold final.
  destruct (Z.eqb_spec r c) as [<- | Hne].
  - unfold z_diag. rewrite z_diag_upto_identity by lia.
    replace ((r =? size - 1) || (r <? Z.of_nat (Z.to_nat (size - 1)))) with true;
      [reflexivity |].
    symmetry. apply orb_true_iff.
    destruct (Z.eq_dec r (size - 1)); [left; apply Z.eqb_eq | right; apply Z.ltb_lt]; lia.
  - destruct (r <? c); apply z_upper_identity; lia.
Qed.

End Identity.

(** C4, as the specification states it, fails: for [j = 2 ^ 25],
    [squared_j = 2 ^ 50] and two states, [j_z[1][1]] is not [1 - j]: the
    [float] the code forms for it is [- 2 ^ 25]. *)
Lemma identity_claim_fails :
  ~ forall i, 0 <= i < 2 ->
      exists v s' x,
        get two_to_25 two_to_50 2 spin_half = Some (v, s') /\
        read (j_z s') i i = Some x /\
        exact_difference i two_to_25 x.
Proof.
  intros H.
  destruct (H 1 ltac:(lia)) as (v & s' & x & Hget & Hx & a & b & Ha & Hb & E).
  vm_compute in Hget. inversion Hget; subst s'; clear Hget.
  vm_compute in Hx. inversion Hx; subst x; clear Hx.
  vm_compute in Ha, Hb. injection Ha as <-. injection Hb as <-.
  vm_compute in E. discriminate E.
Qed.

(** C4, amended.  With the identity matrix for [eigenfunctions] and
    zero-initialized outputs, [j_z] is diagonal on return: every
    off-diagonal cell is zero, and [j_z[i][i]] is the difference [i - j] as
    the code forms it in [float], from [i] converted to [float].  It is
    [i - j] with no rounding whenever [i < 2 ^ 24] and some [float] stands
    for [i - j].  [j] ranges over the real scalars of the data model, [size]
    over the positive values of an [int]. *)
Theorem get_identity j squared_j size s :
  1 <= size <= 2147483647 ->
  real j ->
  eigenfunctions s = identity_matrix size ->
  j_z s = zero_matrix size -> j_plus s = zero_matrix size ->
  j_minus s = zero_matrix size -> transition_probability s = zero_matrix size ->
  exists v s',
    get j squared_j size s = Some (v, s') /\
    (forall r c, 0 <= r < size -> 0 <= c < size ->
       read (j_z s') r c =
         Some (if r =? c then fsub (float_of_int r) j else zero)) /\
    (forall r, 0 <= r < size -> r < 16777216 ->
       (exists y, real y /\ exact_difference r j y) ->
       exists x, read (j_z s') r r = Some x /\ exact_difference r j x).
Proof.
  intros Hsize [Hv Hf] He Hz Hp Hm Ht.
  assert (Hwf : well_formed size s).
  { intros a. destruct a; simpl; rewrite ?He, ?Hz, ?Hp, ?Hm, ?Ht;
      (apply shaped_zero_matrix || apply shaped_identity_matrix). }
  destruct (get_final j squared_j size s ltac:(lia) Hwf) as (s' & Hget & Hs').
  assert (Hcells : forall r c, 0 <= r < size -> 0 <= c < size ->
            read (j_z s') r c =
              Some (if r =? c then fsub (float_of_int r) j else zero)).
  { intros r c Hr Hc.
    destruct (repr_read size s' _ r c Hs' Hr Hc) as (-> & _).
    f_equal. apply final_identity; try assumption.
    - apply zeroed_contents; assumption.
    - intros i k Hi Hk. unfold contents. simpl. rewrite He.
      rewrite read_identity_matrix by assumption. reflexivity. }
  eexists _, s'. split; [exact Hget |]. split; [exact Hcells |].
  intros r Hr Hr24 (y & [Hvy _] & a & b & Hya & Hjb & ->).
  rewrite (Hcells r r Hr Hr), Z.eqb_refl.
  eexists. split; [reflexivity |].
  destruct (float_of_int_exact r ltac:(change (2 ^ 24) with 16777216; lia))
    as [Hvr Hsr].
  exists (r * 2 ^ 149 - b), b. split; [| split; [exact Hjb | reflexivity]].
  apply (fsub_exact (float_of_int r) j y); assumption.
Qed.

(** ** Bounds of the accesses *)

Example get_out_of_bounds :
  get zero zero 2 (State [[zero]] [[zero]] [[zero]] [[zero]] [[one]]) = None.
Proof. vm_compute. reflexivity. Qed.

(** C5. On matrices of [size] by [size] cells every access of the call is
    within bounds: the call returns (an access out of bounds makes the
    embedding fail, as in [get_out_of_bounds]).  For [size = 1] with
    [j = 0], zero-initialized outputs and a real entry in [eigenfunctions],
    the four output matrices hold the single entry zero on return. *)
Theorem get_in_bounds j squared_j size s :
  1 <= size -> well_formed size s ->
  is_Some (get j squared_j size s) /\
  (size = 1 -> is_zero j = true ->
   j_z s = [[zero]] -> j_plus s = [[zero]] ->
   j_minus s = [[zero]] -> transition_probability s = [[zero]] ->
   (forall x, read (eigenfunctions s) 0 0 = Some x -> real x) ->
   exists v s',
     get j squared_j size s = Some (v, s') /\
     j_z s' = [[zero]] /\ j_plus s' = [[zero]] /\
     j_minus s' = [[zero]] /\ transition_probability s' = [[zero]]).
Proof.
  intros Hsize Hwf.
  destruct (get_final j squared_j size s Hsize Hwf) as (s' & Hget & Hs').
  split; [rewrite Hget; eauto |].
  intros -> Hj Hz Hp Hm Ht He.
  eexists _, s'. split; [exact Hget |].
  set (g := contents s) in *.
  destruct (repr_read 1 s g 0 0 (repr_contents 1 s Hwf) ltac:(lia) ltac:(lia))
    as (Hz0 & Hp0 & Hm0 & Ht0 & He0).
  rewrite Hz in Hz0. rewrite Hp in Hp0. rewrite Hm in Hm0. rewrite Ht in Ht0.
  injection Hz0 as Hz0. injection Hp0 as Hp0. injection Hm0 as Hm0. injection Ht0 as Ht0.
  destruct (He _ He0) as [Hev Hef].
  assert (Hcells : forall a, a <> Ef -> final j squared_j 1 g a 0 0 = zero).
  { intros a Ha. unfold final. simpl.
    unfold z_diag, p_diag, z_diag_upto, p_diag_upto. simpl.
    destruct a; try congruence; try (symmetry; assumption).
    rewrite <- Hz0. unfold z_diag_term.
    assert (Em : to_double (mqn j 0) = zero).
    { destruct j as [[|] | | |]; try discriminate; reflexivity. }
    change (1 - 1) with 0. rewrite Em. apply add_d_zero_zero.
    pose proof (pow_2_to_double_finite _ Hev Hef) as Hfin.
    destruct (pow_2 (to_double (g Ef 0 0))); try discriminate; reflexivity. }
  assert (Hout : forall a, a <> Ef -> sel a s' = [[zero]]).
  { intros a Ha. apply (shaped_ext 1); [apply (Hs' a) | apply (shaped_zero_matrix 1) |].
    intros i k Hi Hk.
    assert (i = 0) by lia. assert (k = 0) by lia. subst i k.
    destruct (Hs' a) as [_ Hr]. rewrite Hr by lia. rewrite Hcells by assumption.
    reflexivity. }
  repeat split.
  - apply (Hout Jz). discriminate.
  - apply (Hout Jplus). discriminate.
  - apply (Hout Jminus). discriminate.
  - apply (Hout Tp). discriminate.
Qed.

(** ** Negating an eigenvector *)

Lemma shaped_flip_column n k m : shaped n m -> shaped n (flip_column k m).
Proof.
  intros [Hl Hr]. unfold flip_column. split.
  - rewrite length_fmap. assumption.
  - rewrite Forall_fmap. eapply Forall_impl; [exact Hr |].
    intros row Hrow. simpl. rewrite length_alter. assumption.
Qed.

Lemma read_flip_column k m i c :
  0 <= k -> 0 <= i -> 0 <= c ->
  read (flip_column k m) i c =
  (if c =? k then SFopp else fun x => x) <$> read m i c.
Proof.
  intros Hk Hi Hc. unfold read, flip_column.
  rewrite !index_Some by assumption. simpl.
  rewrite list_lookup_fmap.
  destruct (m !! Z.to_nat i) as [row |]; simpl; [| reflexivity].
  destruct (Z.eqb_spec c k) as [-> | Hne].
  - rewrite list_lookup_alter_eq. reflexivity.
  - rewrite list_lookup_alter_ne by lia.
    destruct (row !! Z.to_nat c); reflexivity.
Qed.

Lemma well_formed_flip n k s :
  well_formed n s -> well_formed n (flip_eigenvector k s).
Proof.
  intros H a. unfold flip_eigenvector.
  destruct a;
    [apply (H Jz) | apply (H Jplus) | apply (H Jminus) | apply (H Tp) |].
  simpl. apply shaped_flip_column. apply (H Ef).
Qed.

Lemma flipped_contents k s :
  0 <= k -> flipped k (contents s) (contents (flip_eigenvector k s)).
Proof.
  intros Hk. split.
  - intros a i c Ha. unfold contents, flip_eigenvector.
    destruct a; try reflexivity. congruence.
  - intros i c Hi Hc. unfold contents, flip_eigenvector. simpl.
    rewrite read_flip_column by assumption.
    destruct (read (eigenfunctions s) i c); destruct (c =? k); reflexivity.
Qed.

Lemma accumulate_ext_upto {T} (add : float -> T -> float) term term' n init :
  (forall i, 0 <= i < Z.of_nat n -> term i = term' i) ->
  accumulate add term n init = accumulate add term' n init.
Proof.
  induction n as [| n IH]; intros H; simpl; [reflexivity |].
  rewrite IH by (intros i Hi; apply H; lia).
  rewrite H by lia. reflexivity.
Qed.

Lemma accumulate_opposite term term' n init init' :
  (forall i, 0 <= i < Z.of_nat n -> term' i = SFopp (term i)) ->
  opposite init init' ->
  opposite (accumulate fadd term n init) (accumulate fadd term' n init').
Proof.
  induction n as [| n IH]; intros H Hinit; simpl; [assumption |].
  rewrite H by lia. apply SFadd_opposite.
  apply IH; [| assumption]. intros i Hi. apply H. lia.
Qed.

Section Flip.

Variables (j squared_j : float) (size k : Z) (g g' : grid).

Lemma z_diag_flipped r :
  flipped k g g' -> 1 <= size -> 0 <= r ->
  z_diag j size g' r = z_diag j size g r.
Proof.
  intros [Hout Hef] Hsize Hr. unfold z_diag, z_diag_upto.
  assert (Hterm : forall i, 0 <= i -> z_diag_term j g' r i = z_diag_term j g r i).
  { intros i Hi. unfold z_diag_term. rewrite Hef by assumption.
    destruct (r =? k); [| reflexivity].
    rewrite to_double_opp. unfold pow_2, dmul. rewrite SFmul_opp_opp. reflexivity. }
  rewrite (accumulate_ext_upto _ _ (z_diag_term j g r)) by (intros i Hi; apply Hterm; lia).
  rewrite Hterm by lia. rewrite Hout by discriminate. reflexivity.
Qed.

Lemma p_diag_flipped r :
  flipped k g g' -> 1 <= size -> 0 <= r ->
  p_diag j squared_j size g' r = p_diag j squared_j size g r.
Proof.
  intros [Hout Hef] Hsize Hr. unfold p_diag, p_diag_upto.
  rewrite Hout by discriminate.
  apply accumulate_ext_upto. intros i Hi. unfold p_diag_term.
  rewrite !Hef by lia.
  destruct (r =? k); [| reflexivity].
  unfold fmul. rewrite SFmul_opp_opp. reflexivity.
Qed.

(** Above the diagonal: the three cells of a pair that involves [k] change
    sign, the others are unchanged. *)
Lemma upper_flipped r c :
  flipped k g g' -> zeroed size g -> 1 <= size -> 0 <= r < c -> c < size ->
  let rel := fun x y : float =>
    if (r =? k) || (c =? k) then opposite x y else y = x in
  rel (z_upper j size g r c) (z_upper j size g' r c) /\
  rel (p_upper j squared_j size g r c) (p_upper j squared_j size g' r c) /\
  rel (m_upper j squared_j size g r c) (m_upper j squared_j size g' r c).
Proof.
  intros [Hout Hef] Hzero Hsize Hr Hc rel.
  assert (Hterms : forall i, 0 <= i ->
    let f := fun x : float => if (r =? k) || (c =? k) then SFopp x else x in
    z_term j g' r c i = f (z_term j g r c i) /\
    p_term j squared_j g' r c i = f (p_term j squared_j g r c i) /\
    m_term j squared_j g' r c i = f (m_term j squared_j g r c i)).
  { intros i Hi f. unfold f, z_term, p_term, m_term, fmul.
    rewrite !Hef by lia.
    destruct (Z.eqb_spec r k) as [-> | Hrk]; destruct (Z.eqb_spec c k) as [-> | Hck];
      simpl; try lia;
      rewrite ?SFmul_opp_l, ?SFmul_opp_r, ?SFmul_opp_l; repeat split; reflexivity. }
  unfold rel, z_upper, p_upper, m_upper, z_upto, p_upto, m_upto.
  rewrite !Hout by discriminate.
  rewrite !Hzero by (try discriminate; lia).
  destruct ((r =? k) || (c =? k)) eqn:E.
  - repeat split.
    + apply accumulate_opposite.
      * intros i Hi. apply (Hterms i). lia.
      * destruct (Hterms (size - 1) ltac:(lia)) as (-> & _).
        apply SFadd_opposite. right. split; reflexivity.
    + apply accumulate_opposite.
      * intros i Hi. apply (Hterms i). lia.
      * right. split; reflexivity.
    + apply accumulate_opposite.
      * intros i Hi. apply (Hterms i). lia.
      * right. split; reflexivity.
  - repeat split.
    + destruct (Hterms (size - 1) ltac:(lia)) as (-> & _).
      apply accumulate_ext_upto. intros i Hi. apply (Hterms i). lia.
    + apply accumulate_ext_upto. intros i Hi. apply (Hterms i). lia.
    + apply accumulate_ext_upto. intros i Hi. apply (Hterms i). lia.
Qed.

Lemma t_upper_flipped r c :
  flipped k g g' -> zeroed size g -> 1 <= size -> 0 <= r < c -> c < size ->
  t_upper j squared_j size g' r c = t_upper j squared_j size g r c.
Proof.
  intros Hf Hzero Hsize Hr Hc.
  destruct (upper_flipped r c Hf Hzero Hsize Hr Hc) as (Hz & Hp & Hm).
  unfold t_upper. simpl in Hz, Hp, Hm.
  destruct ((r =? k) || (c =? k)).
  - apply probability_opposite; assumption.
  - rewrite Hz, Hp, Hm. reflexivity.
Qed.

End Flip.

(** C6. Negating the eigenvector [k] (the column [k] of [eigenfunctions])
    leaves the diagonal cells of [j_z], [j_plus] and [j_minus] and the whole
    of [transition_probability] as they are, and changes the sign of every
    off-diagonal cell of [j_z], [j_plus] and [j_minus] in the row or the
    column [k].  (A cell that is zero stays zero, of either sign.) *)
Theorem get_sign_flip j squared_j size k s :
  1 <= size -> 0 <= k < size -> well_formed size s ->
  j_z s = zero_matrix size -> j_plus s = zero_matrix size ->
  j_minus s = zero_matrix size -> transition_probability s = zero_matrix size ->
  exists v s1 v' s2,
    get j squared_j size s = Some (v, s1) /\
    get j squared_j size (flip_eigenvector k s) = Some (v', s2) /\
    transition_probability s2 = transition_probability s1 /\
    forall r c, 0 <= r < size -> 0 <= c < size ->
      (r = c ->
         read (j_z s2) r c = read (j_z s1) r c /\
         read (j_plus s2) r c = read (j_plus s1) r c /\
         read (j_minus s2) r c = read (j_minus s1) r c) /\
      (r <> c -> r = k \/ c = k ->
         exists z z' p p' m m',
           read (j_z s1) r c = Some z /\ read (j_z s2) r c = Some z' /\
           read (j_plus s1) r c = Some p /\ read (j_plus s2) r c = Some p' /\
           read (j_minus s1) r c = Some m /\ read (j_minus s2) r c = Some m' /\
           opposite z z' /\ opposite p p' /\ opposite m m').
Proof.
  intros Hsize Hk Hwf Hz Hp Hm Ht.
  pose proof (well_formed_flip size k s Hwf) as Hwf'.
  destruct (get_final j squared_j size s Hsize Hwf) as (s1 & Hg1 & Hs1).
  destruct (get_final j squared_j size _ Hsize Hwf') as (s2 & Hg2 & Hs2).
  pose proof (flipped_contents k s ltac:(lia)) as Hfl.
  pose proof (zeroed_contents size s Hz Hp Hm Ht) as Hzero.
  set (g := contents s) in *. set (g' := contents (flip_eigenvector k s)) in *.
  eexists _, s1, _, s2. split; [exact Hg1 |]. split; [exact Hg2 |]. split.
  - apply (shaped_ext size); [apply (Hs2 Tp) | apply (Hs1 Tp) |].
    intros r c Hr Hc.
    destruct (repr_read size s1 _ r c Hs1 Hr Hc) as (_ & _ & _ & -> & _).
    destruct (repr_read size s2 _ r c Hs2 Hr Hc) as (_ & _ & _ & -> & _).
    f_equal. unfold final.
    destruct (Z.eqb_spec r c); [apply Hfl; discriminate |].
    destruct (Z.ltb_spec r c).
    + apply (t_upper_flipped j squared_j size k g g'); (assumption || lia).
    + apply (t_upper_flipped j squared_j size k g g'); (assumption || lia).
  - intros r c Hr Hc.
    destruct (repr_read size s1 _ r c Hs1 Hr Hc) as (Hz1 & Hp1 & Hm1 & _).
    destruct (repr_read size s2 _ r c Hs2 Hr Hc) as (Hz2 & Hp2 & Hm2 & _).
    split.
    + intros <-. rewrite Hz1, Hp1, Hm1, Hz2, Hp2, Hm2. unfold final.
      rewrite Z.eqb_refl.
      rewrite (z_diag_flipped j size k g g' r Hfl) by lia.
      rewrite (p_diag_flipped j squared_j size k g g' r Hfl) by lia.
      repeat split; reflexivity.
    + intros Hne Hinv.
      eexists _, _, _, _, _, _.
      do 6 (split; [eassumption |]).
      unfold final. destruct (Z.eqb_spec r c); [lia |].
      destruct (Z.ltb_spec r c).
      * destruct (upper_flipped j squared_j size k g g' r c Hfl Hzero Hsize
                    ltac:(lia) ltac:(lia)) as (H1 & H2 & H3).
        simpl in H1, H2, H3.
        replace ((r =? k) || (c =? k)) with true in H1, H2, H3
          by (symmetry; apply orb_true_iff; lia).
        repeat split; assumption.
      * destruct (upper_flipped j squared_j size k g g' c r Hfl Hzero Hsize
                    ltac:(lia) ltac:(lia)) as (H1 & H2 & H3).
        simpl in H1, H2, H3.
        replace ((c =? k) || (r =? k)) with true in H1, H2, H3
          by (symmetry; apply orb_true_iff; lia).
        repeat split; assumption.
Qed.

(** ** The diagonal of the transition probabilities *)

(** C7. No diagonal cell of [transition_probability] is written: on
    return each holds the value it held on entry, whatever that was, and
    so zero when the caller has zero-initialized the matrix. *)
Theorem get_probability_diagonal j squared_j size s :
  1 <= size -> well_formed size s ->
  exists v s',
    get j squared_j size s = Some (v, s') /\
    (forall r, 0 <= r < size ->
       read (transition_probability s') r r = read (transition_probability s) r r) /\
    (transition_probability s = zero_matrix size ->
     forall r, 0 <= r < size -> read (transition_probability s') r r = Some zero).
Proof.
  intros Hsize Hwf.
  destruct (get_final j squared_j size s Hsize Hwf) as (s' & Hget & Hs').
  eexists _, s'. split; [exact Hget |].
  assert (Hdiag : forall r, 0 <= r < size ->
    read (transition_probability s') r r = read (transition_probability s) r r).
  { intros r Hr.
    destruct (repr_read size s' _ r r Hs' Hr Hr) as (_ & _ & _ & Ht & _).
    destruct (repr_read size s _ r r (repr_contents _ _ Hwf) Hr Hr) as (_ & _ & _ & Ht0 & _).
    rewrite Ht, Ht0. f_equal. unfold final. rewrite Z.eqb_refl. reflexivity. }
  split; [exact Hdiag |].
  intros Hzero r Hr. rewrite Hdiag by assumption. rewrite Hzero.
  apply read_zero_matrix; assumption.
Qed.

(** ** Stores that agree on the cells that are read *)

Section Dependence.

Variables (j squared_j : float) (size : Z) (g g' : grid).

Hypothesis Hsize : 1 <= size.
Hypothesis Hef : forall i k, 0 <= i < size -> 0 <= k < size -> g Ef i k = g' Ef i k.

Lemma z_diag_ext r :
  0 <= r < size -> g Jz r r = g' Jz r r ->
  z_diag j size g r = z_diag j size g' r.
Proof using Hsize Hef.
  intros Hr Hz. unfold z_diag, z_diag_upto, z_diag_term.
  rewrite Hz, Hef by lia.
  apply accumulate_ext_upto. intros i Hi. rewrite Hef by lia. reflexivity.
Qed.

Lemma z_upper_ext r c :
  0 <= r < size -> 0 <= c < size -> g Jz r c = g' Jz r c ->
  z_upper j size g r c = z_upper j size g' r c.
Proof using Hsize Hef.
  intros Hr Hc Hz. unfold z_upper, z_upto, z_term.
  rewrite Hz, !Hef by lia.
  apply accumulate_ext_upto. intros i Hi. rewrite !Hef by lia. reflexivity.
Qed.

Lemma p_diag_ext r :
  0 <= r < size -> g Jplus r r = g' Jplus r r ->
  p_diag j squared_j size g r = p_diag j squared_j size g' r.
Proof using Hsize Hef.
  intros Hr Hp. unfold p_diag, p_diag_upto, p_diag_term. rewrite Hp.
  apply accumulate_ext_upto. intros i Hi. rewrite !Hef by lia. reflexivity.
Qed.

Lemma p_upper_ext r c :
  0 <= r < size -> 0 <= c < size -> g Jplus r c = g' Jplus r c ->
  p_upper j squared_j size g r c = p_upper j squared_j size g' r c.
Proof using Hsize Hef.
  intros Hr Hc Hp. unfold p_upper, p_upto, p_term. rewrite Hp.
  apply accumulate_ext_upto. intros i Hi. rewrite !Hef by lia. reflexivity.
Qed.

Lemma m_upper_ext r c :
  0 <= r < size -> 0 <= c < size -> g Jminus r c = g' Jminus r c ->
  m_upper j squared_j size g r c = m_upper j squared_j size g' r c.
Proof using Hsize Hef.
  intros Hr Hc Hm. unfold m_upper, m_upto, m_term. rewrite Hm.
  apply accumulate_ext_upto. intros i Hi. rewrite !Hef by lia. reflexivity.
Qed.

End Dependence.

Lemma final_agree j squared_j size g g' :
  1 <= size -> agree size g g' ->
  same size (final j squared_j size g) (final j squared_j size g').
Proof.
  intros Hsize (Hef & Hzp & Hm & Ht) a r c Hr Hc.
  unfold final, t_upper.
  destruct a; destruct (Z.eqb_spec r c) as [E | E]; try subst c;
    try destruct (Z.ltb_spec r c);
    rewrite ?(z_diag_ext j size g g' Hsize Hef r Hr (proj1 (Hzp r r ltac:(lia) ltac:(lia))));
    rewrite ?(p_diag_ext j squared_j size g g' Hsize Hef r Hr
                (proj2 (Hzp r r ltac:(lia) ltac:(lia))));
    try reflexivity; try (apply Ht; lia); try (apply Hef; lia).
  - apply z_upper_ext; try assumption; apply Hzp; lia.
  - apply z_upper_ext; try assumption; apply Hzp; lia.
  - apply p_upper_ext; try assumption; apply Hzp; lia.
  - apply m_upper_ext; try assumption; apply Hm; lia.
  - apply m_upper_ext; try assumption; apply Hm; lia.
  - apply p_upper_ext; try assumption; apply Hzp; lia.
  - rewrite (z_upper_ext j size g g' Hsize Hef r c) by (try lia; apply Hzp; lia).
    rewrite (p_upper_ext j squared_j size g g' Hsize Hef r c) by (try lia; apply Hzp; lia).
    rewrite (m_upper_ext j squared_j size g g' Hsize Hef r c) by (try lia; apply Hm; lia).
    reflexivity.
  - rewrite (z_upper_ext j size g g' Hsize Hef c r) by (try lia; apply Hzp; lia).
    rewrite (p_upper_ext j squared_j size g g' Hsize Hef c r) by (try lia; apply Hzp; lia).
    rewrite (m_upper_ext j squared_j size g g' Hsize Hef c r) by (try lia; apply Hm; lia).
    reflexivity.
Qed.

Lemma repr_same_store n s t g g' :
  repr n s g -> repr n t g' -> same n g g' -> s = t.
Proof.
  intros Hs Ht Hsame.
  assert (H : forall a, sel a s = sel a t).
  { intros a. destruct (Hs a) as [Hsh Hr]. destruct (Ht a) as [Hsh' Hr'].
    apply (shaped_ext n); try assumption.
    intros i k Hi Hk. rewrite Hr, Hr' by assumption. f_equal. apply Hsame; assumption. }
  pose proof (H Jz) as Hz. pose proof (H Jplus) as Hp. pose proof (H Jminus) as Hm.
  pose proof (H Tp) as Htp. pose proof (H Ef) as He.
  destruct s, t. simpl in Hz, Hp, Hm, Htp, He. congruence.
Qed.

(** ** Accumulation into the caller's storage *)

(** C8, as the specification states it, fails: the results of the
    zero-initialized call for J = 1/2 are also obtained from the store
    [unzeroed], in which none of the four output matrices is
    zero-initialized. *)
Lemma zero_initialization_claim_fails :
  ~ (get half three_quarters 2 unzeroed = get half three_quarters 2 spin_half ->
     j_z unzeroed = zero_matrix 2 /\ j_plus unzeroed = zero_matrix 2 /\
     j_minus unzeroed = zero_matrix 2 /\
     transition_probability unzeroed = zero_matrix 2).
Proof.
  intros H. destruct H as (Hz & _); [vm_compute; reflexivity |].
  vm_compute in Hz. discriminate Hz.
Qed.

(** C8, amended.  The diagonal and the upper triangle of [j_z] and
    [j_plus] and the upper triangle of [j_minus] are accumulated with [+=]:
    the final cell is the cell on entry with the terms of the sum added to
    it one after the other ([g] is the store on entry).  Every other cell
    the call writes is assigned, and the diagonal of
    [transition_probability] is not written.  So the results of the
    zero-initialized call are obtained whenever the accumulated cells and
    the diagonal of [transition_probability] are zero on entry, whatever the
    other output cells hold.  What an accumulated cell holds on entry does
    reach the result: the last part shows two calls that differ in the
    initial [j_z[0][0]] alone, where the cell that was zero on entry holds 0
    on return and the one that held 1 holds 1. *)
Theorem get_accumulates j squared_j size s :
  1 <= size -> well_formed size s ->
  let g := contents s in
  let n := Z.to_nat (size - 1) in
  (forall a i k, 0 <= i < size -> 0 <= k < size ->
     read (sel a s) i k = Some (g a i k)) /\
  (exists v s',
    get j squared_j size s = Some (v, s') /\
    (forall r, 0 <= r < size ->
       read (j_z s') r r =
         Some (accumulate add_d (z_diag_term j g r) n
                 (add_d (g Jz r r) (z_diag_term j g r (size - 1)))) /\
       read (j_plus s') r r =
         Some (accumulate add_d (p_diag_term j squared_j g r) n (g Jplus r r))) /\
    (forall r c, 0 <= r < c -> c < size ->
       read (j_z s') r c =
         Some (accumulate fadd (z_term j g r c) n
                 (fadd (g Jz r c) (z_term j g r c (size - 1)))) /\
       read (j_plus s') r c =
         Some (accumulate fadd (p_term j squared_j g r c) n (g Jplus r c)) /\
       read (j_minus s') r c =
         Some (accumulate fadd (m_term j squared_j g r c) n (g Jminus r c))) /\
    ((forall r c, 0 <= r <= c -> c < size ->
        g Jz r c = zero /\ g Jplus r c = zero) ->
     (forall r c, 0 <= r < c -> c < size -> g Jminus r c = zero) ->
     (forall r, 0 <= r < size -> g Tp r r = zero) ->
     get j squared_j size (zero_initialized size (eigenfunctions s)) =
       Some (v, s'))) /\
  (exists v1 s1 v2 s2,
     get zero zero 1 spin_zero = Some (v1, s1) /\
     get zero zero 1 (upd Jz [[one]] spin_zero) = Some (v2, s2) /\
     j_z s1 = [[zero]] /\ j_z s2 = [[one]]).
Proof.
  intros Hsize Hwf g n. split; [| split].
  - intros a i k Hi Hk. destruct (repr_contents _ _ Hwf a) as [_ Hr].
    apply Hr; assumption.
  - destruct (get_final j squared_j size s Hsize Hwf) as (s' & Hget & Hs').
    eexists _, s'. split; [exact Hget |]. split; [| split].
    + intros r Hr.
      destruct (repr_read size s' _ r r Hs' Hr Hr) as (Hz & Hp & _).
      rewrite Hz, Hp. unfold final. rewrite Z.eqb_refl. split; reflexivity.
    + intros r c Hr Hc.
      destruct (repr_read size s' _ r c Hs' ltac:(lia) ltac:(lia)) as (Hz & Hp & Hm & _).
      rewrite Hz, Hp, Hm. unfold final.
      destruct (Z.eqb_spec r c); [lia |].
      destruct (Z.ltb_spec r c); [| lia].
      repeat split; reflexivity.
    + intros Hzp Hm Ht.
      set (t := zero_initialized size (eigenfunctions s)).
      assert (Hwt : well_formed size t).
      { intros a. destruct a; simpl; try apply shaped_zero_matrix. apply (Hwf Ef). }
      destruct (get_final j squared_j size t Hsize Hwt) as (t' & Hgt & Ht').
      assert (H0 : forall a r c, a <> Ef -> 0 <= r < size -> 0 <= c < size ->
                contents t a r c = zero).
      { intros a r c Ha Hr Hc. unfold contents.
        destruct a; simpl; rewrite ?read_zero_matrix by assumption;
          try reflexivity. congruence. }
      assert (Hagree : agree size (contents t) g).
      { unfold agree. split; [| split; [| split]].
        - intros i k _ _. reflexivity.
        - intros r c Hr Hc. destruct (Hzp r c Hr Hc) as [-> ->].
          rewrite !H0 by (try discriminate; lia). split; reflexivity.
        - intros r c Hr Hc. rewrite (Hm r c Hr Hc).
          apply H0; [discriminate | lia | lia].
        - intros r Hr. rewrite (Ht r Hr). apply H0; [discriminate | lia | lia]. }
      pose proof (final_agree j squared_j size _ _ Hsize Hagree) as Hsame.
      assert (E : t' = s') by (eapply repr_same_store; eassumption).
      subst t'. rewrite Hgt. rewrite (Hsame Jz 0 0) by lia. reflexivity.
  - eexists _, _, _, _. repeat split; vm_compute; reflexivity.
Qed.

(** ** Effects of the call *)

Lemma keeps_ret {A} (a : A) : keeps_eigenfunctions (ret a).
Proof. intros s b s' H. inversion H. reflexivity. Qed.

Lemma keeps_bind {A B} (m : Cmd A) (k : A -> Cmd B) :
  keeps_eigenfunctions m -> (forall a, keeps_eigenfunctions (k a)) ->
  keeps_eigenfunctions (bind m k).
Proof.
  intros Hm Hk s b s' H. unfold bind in H.
  destruct (m s) as [[a s1] |] eqn:E; [| discriminate].
  rewrite (Hk a _ _ _ H). apply (Hm _ _ _ E).
Qed.

Lemma keeps_load a i k : keeps_eigenfunctions (load a i k).
Proof.
  intros s v s' H. unfold load in H.
  destruct (read (sel a s) i k); inversion H. reflexivity.
Qed.

Lemma keeps_store a i k v : a <> Ef -> keeps_eigenfunctions (store a i k v).
Proof.
  intros Ha s u s' H. unfold store in H.
  destruct (write (sel a s) i k v); inversion H.
  destruct a; try reflexivity. congruence.
Qed.

Lemma keeps_for_loop body n :
  (forall i, keeps_eigenfunctions (body i)) ->
  forall lo, keeps_eigenfunctions (for_loop n lo body).
Proof.
  intros Hbody. induction n as [| n IH]; intros lo; simpl.
  - apply keeps_ret.
  - apply keeps_bind; [apply Hbody | intros _; apply IH].
Qed.

Lemma keeps_for lo hi body :
  (forall i, keeps_eigenfunctions (body i)) -> keeps_eigenfunctions (for_ lo hi body).
Proof. intros H. apply keeps_for_loop. assumption. Qed.

Ltac keeps :=
  repeat first
    [ apply keeps_ret
    | apply keeps_load
    | apply keeps_store; discriminate
    | apply keeps_bind; [| intros ?]
    | apply keeps_for; intros ? ].

(** X9. The call never writes [eigenfunctions]: whenever it returns, the
    matrix is on return what it was on entry, for every [j], [squared_j],
    [size] and every content of the five matrices. *)
Theorem get_keeps_eigenfunctions j squared_j size s v s' :
  get j squared_j size s = Some (v, s') -> eigenfunctions s' = eigenfunctions s.
Proof.
  revert s v s'. change (keeps_eigenfunctions (get j squared_j size)).
  unfold get, row_body, pair_body, pair_step, diagonal_step, add_double, add_float.
  keeps.
Qed.

(** ** The returned value *)

Lemma accumulate_ext {T} (add : float -> T -> float) term term' n init :
  (forall i, term i = term' i) ->
  accumulate add term n init = accumulate add term' n init.
Proof.
  intros H. induction n as [| n IH]; simpl; [reflexivity |].
  rewrite IH, H. reflexivity.
Qed.

Lemma get_returns_top_left j squared_j size s v s' :
  get j squared_j size s = Some (v, s') -> read (j_z s') 0 0 = Some v.
Proof.
  unfold get, bind, load. simpl.
  destruct (for_ 0 size (row_body j squared_j size) s) as [[u s1] |]; [| discriminate].
  destruct (read (j_z s1) 0 0) as [r0 |] eqn:E0; [| discriminate].
  destruct (read (j_plus s1) 0 0) as [r1 |]; [| discriminate].
  destruct (read (j_minus s1) 0 0) as [r2 |]; [| discriminate].
  destruct (read (transition_probability s1) 0 0) as [r3 |]; [| discriminate].
  unfold ret. intros H. inversion H; subst. assumption.
Qed.

(** C10. The value returned is [j_z[0][0]] as the call leaves it.  The
    other three elements of the local array do not reach it: two stores
    that agree on [j_z] and [eigenfunctions] give the same returned value,
    whatever their [j_plus], [j_minus] and [transition_probability] hold. *)
Theorem get_returns j squared_j size s :
  (forall v s', get j squared_j size s = Some (v, s') ->
     read (j_z s') 0 0 = Some v) /\
  (forall t, 1 <= size -> well_formed size s -> well_formed size t ->
     j_z t = j_z s -> eigenfunctions t = eigenfunctions s ->
     exists v s' t',
       get j squared_j size s = Some (v, s') /\
       get j squared_j size t = Some (v, t')).
Proof.
  split.
  - intros v s'. apply get_returns_top_left.
  - intros t Hsize Hs Ht Hz He.
    destruct (get_final j squared_j size s Hsize Hs) as (s' & Hgs & _).
    destruct (get_final j squared_j size t Hsize Ht) as (t' & Hgt & _).
    eexists _, s', t'. split; [exact Hgs |]. rewrite Hgt. do 2 f_equal.
    unfold final. simpl. unfold z_diag, z_diag_upto.
    assert (Hterm : forall i, z_diag_term j (contents t) 0 i = z_diag_term j (contents s) 0 i).
    { intros i. unfold z_diag_term, contents. simpl. rewrite He. reflexivity. }
    rewrite (accumulate_ext _ _ _ _ _ Hterm), Hterm.
    unfold contents. simpl. rewrite Hz. reflexivity.
Qed.

(** ** The theorems at concrete inputs *)

(** [well_formed] of a given store, by computing the lengths. *)
Ltac well_formed_by_computation :=
  let a := fresh "a" in
  intros a; destruct a; (split; [reflexivity | repeat constructor]).

Lemma get_symmetric_witness :
  1 <= 2 /\ well_formed 2 spin_half /\
  exists v s',
    get half three_quarters 2 spin_half = Some (v, s') /\
    forall r c, 0 <= r < 2 -> 0 <= c < 2 ->
      (exists x, read (j_z s') r c = Some x /\ read (j_z s') c r = Some x) /\
      (exists x, read (transition_probability s') r c = Some x /\
                 read (transition_probability s') c r = Some x) /\
      (exists x, read (j_plus s') r c = Some x /\ read (j_minus s') c r = Some x).
Proof.
  assert (H1 : 1 <= 2) by lia.
  assert (H2 : well_formed 2 spin_half) by well_formed_by_computation.
  exact (conj H1 (conj H2 (get_symmetric half three_quarters 2 spin_half H1 H2))).
Defined.

Lemma get_transition_probability_witness :
  1 <= 2 /\ well_formed 2 spin_half /\
  exists v s',
    get half three_quarters 2 spin_half = Some (v, s') /\
    forall r c, 0 <= r < c -> c < 2 ->
      exists z p m t,
        read (j_z s') r c = Some z /\
        read (j_plus s') r c = Some p /\
        read (j_minus s') r c = Some m /\
        t = to_float
              (ddiv
                 (dadd (dadd (pow_2 (to_double (fmul (float_of_int 2) z)))
                             (pow_2 (to_double p)))
                       (pow_2 (to_double m)))
                 (double_of_int 3)) /\
        read (transition_probability s') r c = Some t /\
        read (transition_probability s') c r = Some t.
Proof.
  assert (H1 : 1 <= 2) by lia.
  assert (H2 : well_formed 2 spin_half) by well_formed_by_computation.
  exact (conj H1 (conj H2
    (get_transition_probability half three_quarters 2 spin_half H1 H2))).
Defined.

Lemma get_identity_witness :
  exists v s',
    get half three_quarters 2 spin_half = Some (v, s') /\
    (forall r c, 0 <= r < 2 -> 0 <= c < 2 ->
       read (j_z s') r c =
         Some (if r =? c then fsub (float_of_int r) half else zero)) /\
    (exists x, read (j_z s') 1 1 = Some x /\ exact_difference 1 half x).
Proof.
  destruct (get_identity half three_quarters 2 spin_half)
    as (v & s' & Hget & Hcells & Hexact);
    [lia | split; reflexivity | reflexivity | reflexivity
    | reflexivity | reflexivity | reflexivity |].
  exists v, s'. split; [exact Hget |]. split; [exact Hcells |].
  apply (Hexact 1); [lia | lia |].
  exists half. split; [split; reflexivity |].
  eexists _, _. split; [reflexivity |]. split; [reflexivity |].
  vm_compute. reflexivity.
Defined.

Lemma get_in_bounds_witness :
  is_Some (get zero zero 1 spin_zero) /\
  exists v s',
    get zero zero 1 spin_zero = Some (v, s') /\
    j_z s' = [[zero]] /\ j_plus s' = [[zero]] /\
    j_minus s' = [[zero]] /\ transition_probability s' = [[zero]].
Proof.
  assert (H1 : 1 <= 1) by lia.
  assert (H2 : well_formed 1 spin_zero) by well_formed_by_computation.
  destruct (get_in_bounds zero zero 1 spin_zero H1 H2) as [Hsome Hone].
  split; [exact Hsome |].
  apply Hone; try reflexivity.
  intros x Hx. vm_compute in Hx. injection Hx as <-. split; reflexivity.
Defined.

Lemma get_sign_flip_witness :
  exists v s1 v' s2,
    get half three_quarters 2 spin_half = Some (v, s1) /\
    get half three_quarters 2 (flip_eigenvector 0 spin_half) = Some (v', s2) /\
    transition_probability s2 = transition_probability s1 /\
    forall r c, 0 <= r < 2 -> 0 <= c < 2 ->
      (r = c ->
         read (j_z s2) r c = read (j_z s1) r c /\
         read (j_plus s2) r c = read (j_plus s1) r c /\
         read (j_minus s2) r c = read (j_minus s1) r c) /\
      (r <> c -> r = 0 \/ c = 0 ->
         exists z z' p p' m m',
           read (j_z s1) r c = Some z /\ read (j_z s2) r c = Some z' /\
           read (j_plus s1) r c = Some p /\ read (j_plus s2) r c = Some p' /\
           read (j_minus s1) r c = Some m /\ read (j_minus s2) r c = Some m' /\
           opposite z z' /\ opposite p p' /\ opposite m m').
Proof.
  apply (get_sign_flip half three_quarters 2 0 spin_half);
    [lia | lia | well_formed_by_computation
    | reflexivity | reflexivity | reflexivity | reflexivity].
Defined.

Lemma get_probability_diagonal_witness :
  exists v s',
    get half three_quarters 2 spin_half = Some (v, s') /\
    (forall r, 0 <= r < 2 ->
       read (transition_probability s') r r =
       read (transition_probability spin_half) r r) /\
    (transition_probability spin_half = zero_matrix 2 ->
     forall r, 0 <= r < 2 -> read (transition_probability s') r r = Some zero).
Proof.
  apply (get_probability_diagonal half three_quarters 2 spin_half);
    [lia | well_formed_by_computation].
Defined.

Lemma get_accumulates_witness :
  exists v s',
    get half three_quarters 2 unzeroed = Some (v, s') /\
    read (j_z s') 0 0 =
      Some (accumulate add_d (z_diag_term half (contents unzeroed) 0) 1
              (add_d (contents unzeroed Jz 0 0)
                 (z_diag_term half (contents unzeroed) 0 1))) /\
    get half three_quarters 2 (zero_initialized 2 (eigenfunctions unzeroed)) =
      Some (v, s').
Proof.
  destruct (get_accumulates half three_quarters 2 unzeroed)
    as (_ & (v & s' & Hget & Hdiag & _ & Hzero) & _);
    [lia | well_formed_by_computation |].
  exists v, s'. split; [exact Hget |]. split; [apply (Hdiag 0); lia |].
  apply Hzero.
  - intros r c Hr Hc.
    assert (Hrc : (r = 0 /\ c = 0) \/ (r = 0 /\ c = 1) \/ (r = 1 /\ c = 1)) by lia.
    destruct Hrc as [[-> ->] | [[-> ->] | [-> ->]]]; split; reflexivity.
  - intros r c Hr Hc. assert (r = 0) by lia. assert (c = 1) by lia. subst.
    reflexivity.
  - intros r Hr. assert (Hr' : r = 0 \/ r = 1) by lia.
    destruct Hr' as [-> | ->]; reflexivity.
Defined.

Lemma get_keeps_eigenfunctions_witness :
  exists v s',
    get half three_quarters 2 spin_half = Some (v, s') /\
    eigenfunctions s' = eigenfunctions spin_half.
Proof.
  eexists _, _. split; [vm_compute; reflexivity |].
  eapply (get_keeps_eigenfunctions half three_quarters 2 spin_half).
  vm_compute. reflexivity.
Defined.

Lemma get_returns_witness :
  exists v s' t',
    get half three_quarters 2 spin_half = Some (v, s') /\
    get half three_quarters 2
      (State (zero_matrix 2) (identity_matrix 2) (identity_matrix 2)
         (identity_matrix 2) (identity_matrix 2)) = Some (v, t').
Proof.
  destruct (get_returns half three_quarters 2 spin_half) as (_ & Hsame).
  apply Hsame;
    [lia | well_formed_by_computation | well_formed_by_computation
    | reflexivity | reflexivity].
Defined.

(** * Further properties of [get] *)

(** ** A size that is not positive *)

(** X1. For [size <= 0] no loop body runs: the call reads the top-left
    cells of the four output matrices for the local array, returns
    [j_z[0][0]] and leaves the store as it is; it fails when one of the four
    cells is not allocated. *)
Theorem get_nonpositive_size j squared_j size s :
  size <= 0 ->
  get j squared_j size s =
    (z ← read (j_z s) 0 0; _ ← read (j_plus s) 0 0;
     _ ← read (j_minus s) 0 0; _ ← read (transition_probability s) 0 0;
     Some (z, s)).
Proof.
  intros Hsize. unfold get, for_.
  replace (Z.to_nat (size - 0)) with 0%nat by lia.
  unfold bind, load, ret. simpl.
  destruct (read (j_z s) 0 0); simpl; [| reflexivity].
  destruct (read (j_plus s) 0 0); simpl; [| reflexivity].
  destruct (read (j_minus s) 0 0); simpl; [| reflexivity].
  destruct (read (transition_probability s) 0 0); reflexivity.
Qed.

Lemma get_nonpositive_size_witness :
  get half three_quarters 0 spin_half = Some (zero, spin_half) /\
  get half three_quarters (-3) (upd Jplus [] spin_half) = None.
Proof.
  split.
  - rewrite (get_nonpositive_size half three_quarters 0 spin_half); [reflexivity | lia].
  - rewrite (get_nonpositive_size half three_quarters (-3)); [reflexivity | lia].
Defined.

(** ** The sign of a transition probability *)

Section Signs.

Variables prec emax : Z.

Lemma binary_round_aux_not_negative m e l :
  negative (binary_round_aux prec emax false m e l) = false.
Proof.
  unfold binary_round_aux.
  destruct (shr_fexp prec emax m e l) as [mrs e'].
  destruct (shr_fexp prec emax _ e' loc_Exact) as [mrs' e''].
  destruct (shr_m mrs'); try reflexivity.
  destruct (e'' <=? emax - prec); reflexivity.
Qed.

Lemma binary_round_not_negative m e :
  negative (binary_round prec emax false m e) = false.
Proof.
  unfold binary_round. destruct (shl_align m e _) as [mz ez].
  apply binary_round_aux_not_negative.
Qed.

Lemma SFmul_square_not_negative x : negative (SFmul prec emax x x) = false.
Proof.
  destruct x as [s | s | | s m e]; simpl; rewrite ?xorb_nilpotent; try reflexivity.
  apply binary_round_aux_not_negative.
Qed.

Lemma SFadd_not_negative x y :
  negative x = false -> negative y = false ->
  negative (SFadd prec emax x y) = false.
Proof.
  destruct x as [sx | sx | | sx mx ex], y as [sy | sy | | sy my ey]; simpl;
    intros Hx Hy; subst; try reflexivity.
  destruct (shl_align mx ex (Z.min ex ey)) as [ax ?].
  destruct (shl_align my ey (Z.min ex ey)) as [ay ?]. simpl.
  apply binary_round_not_negative.
Qed.

Lemma SFdiv_not_negative x my ey :
  negative x = false ->
  negative (SFdiv prec emax x (S754_finite false my ey)) = false.
Proof.
  destruct x as [sx | sx | | sx mx ex]; simpl; intros Hx; subst; try reflexivity.
  destruct (SFdiv_core_binary prec emax (Z.pos mx) ex (Z.pos my) ey) as [[mz ez] lz].
  apply binary_round_aux_not_negative.
Qed.

End Signs.

Lemma to_float_negative x : negative x = false -> negative (to_float x) = false.
Proof.
  destruct x as [s | s | | s m e]; simpl; intros H; try assumption.
  subst s. apply binary_round_not_negative.
Qed.

Lemma probability_not_negative z p m : negative (probability z p m) = false.
Proof.
  unfold probability. apply to_float_negative.
  change (double_of_int 3) with (S754_finite false 6755399441055744 (-51)).
  apply SFdiv_not_negative.
  repeat apply SFadd_not_negative; apply SFmul_square_not_negative.
Qed.

(** X3. Whatever the inputs are, an off-diagonal transition probability is
    never negative on return: its sign bit is clear (it is a positive
    number, [+0], [+inf], or a NaN). *)
Theorem get_probability_not_negative j squared_j size s :
  1 <= size -> well_formed size s ->
  exists v s',
    get j squared_j size s = Some (v, s') /\
    forall r c, 0 <= r < size -> 0 <= c < size -> r <> c ->
      exists t, read (transition_probability s') r c = Some t /\
                negative t = false.
Proof.
  intros Hsize Hwf.
  destruct (get_final j squared_j size s Hsize Hwf) as (s' & Hget & Hs').
  eexists _, s'. split; [exact Hget |].
  intros r c Hr Hc Hne.
  destruct (repr_read size s' _ r c Hs' Hr Hc) as (_ & _ & _ & Ht & _).
  eexists. split; [exact Ht |].
  unfold final, t_upper. destruct (Z.eqb_spec r c); [contradiction |].
  destruct (r <? c); apply probability_not_negative.
Qed.

Lemma get_probability_not_negative_witness :
  exists v s',
    get half three_quarters 2 spin_half = Some (v, s') /\
    forall r c, 0 <= r < 2 -> 0 <= c < 2 -> r <> c ->
      exists t, read (transition_probability s') r c = Some t /\
                negative t = false.
Proof.
  apply (get_probability_not_negative half three_quarters 2 spin_half);
    [lia | well_formed_by_computation].
Defined.

(** ** What the result depends on *)

(** X2. The call reads an output cell before writing it only on the
    diagonal and the upper triangle of [j_z] and [j_plus], the upper triangle
    of [j_minus] and the diagonal of [transition_probability]; every other
    output cell is overwritten.  Two stores that agree on [eigenfunctions]
    and on those cells give the same returned value and the same store on
    return, whatever the other cells held. *)
Theorem get_overwrites j squared_j size s t :
  1 <= size -> well_formed size s -> well_formed size t ->
  eigenfunctions s = eigenfunctions t ->
  (forall r c, 0 <= r <= c -> c < size ->
     read (j_z s) r c = read (j_z t) r c /\
     read (j_plus s) r c = read (j_plus t) r c) ->
  (forall r c, 0 <= r < c -> c < size ->
     read (j_minus s) r c = read (j_minus t) r c) ->
  (forall r, 0 <= r < size ->
     read (transition_probability s) r r = read (transition_probability t) r r) ->
  exists v s',
    get j squared_j size s = Some (v, s') /\
    get j squared_j size t = Some (v, s').
Proof.
  intros Hsize Hs Ht He Hzp Hm Htp.
  destruct (get_final j squared_j size s Hsize Hs) as (s' & Hgs & Hs').
  destruct (get_final j squared_j size t Hsize Ht) as (t' & Hgt & Ht').
  assert (Hagree : agree size (contents s) (contents t)).
  { unfold agree, contents. simpl. repeat split.
    - intros i k _ _. rewrite He. reflexivity.
    - destruct (Hzp r c H H0) as [E _]. rewrite E. reflexivity.
    - destruct (Hzp r c H H0) as [_ E]. rewrite E. reflexivity.
    - intros r c Hr Hc. rewrite (Hm r c Hr Hc). reflexivity.
    - intros r Hr. rewrite (Htp r Hr). reflexivity. }
  pose proof (final_agree j squared_j size _ _ Hsize Hagree) as Hsame.
  assert (E : s' = t') by (eapply repr_same_store; eassumption).
  subst t'. eexists _, s'. split; [exact Hgs |].
  rewrite Hgt. rewrite (Hsame Jz 0 0) by lia. reflexivity.
Qed.

Lemma get_overwrites_witness :
  exists v s',
    get half three_quarters 2 spin_half = Some (v, s') /\
    get half three_quarters 2
      (State [[zero; zero]; [one; zero]] [[zero; zero]; [half; zero]]
         [[one; zero]; [third; half]] [[zero; one]; [one; zero]]
         (identity_matrix 2)) = Some (v, s').
Proof.
  apply (get_overwrites half three_quarters 2 spin_half);
    [ lia | well_formed_by_computation | well_formed_by_computation | reflexivity
    | intros r c Hr Hc;
      assert (Hrc : (r = 0 /\ c = 0) \/ (r = 0 /\ c = 1) \/ (r = 1 /\ c = 1)) by lia;
      destruct Hrc as [[-> ->] | [[-> ->] | [-> ->]]]; split; reflexivity
    | intros r c Hr Hc; assert (r = 0) by lia; assert (c = 1) by lia; subst;
      reflexivity
    | intros r Hr; assert (Hr' : r = 0 \/ r = 1) by lia;
      destruct Hr' as [-> | ->]; reflexivity ].
Defined.

(** X4. [j_z] on return and the returned value depend on [j],
    [eigenfunctions] and the diagonal and upper triangle of [j_z] on entry
    alone: [squared_j] and the other three matrices do not reach them. *)
Theorem get_j_z_dependence j squared_j squared_j' size s t :
  1 <= size -> well_formed size s -> well_formed size t ->
  eigenfunctions s = eigenfunctions t ->
  (forall r c, 0 <= r <= c -> c < size -> read (j_z s) r c = read (j_z t) r c) ->
  exists v s' t',
    get j squared_j size s = Some (v, s') /\
    get j squared_j' size t = Some (v, t') /\
    j_z s' = j_z t'.
Proof.
  intros Hsize Hs Ht He Hz.
  destruct (get_final j squared_j size s Hsize Hs) as (s' & Hgs & Hs').
  destruct (get_final j squared_j' size t Hsize Ht) as (t' & Hgt & Ht').
  assert (Hef : forall i k, 0 <= i < size -> 0 <= k < size ->
            contents s Ef i k = contents t Ef i k).
  { intros i k _ _. unfold contents. simpl. rewrite He. reflexivity. }
  assert (Hjz : forall r c, 0 <= r <= c -> c < size ->
            contents s Jz r c = contents t Jz r c).
  { intros r c Hr Hc. unfold contents. simpl. rewrite (Hz r c Hr Hc). reflexivity. }
  assert (Hcell : forall r c, 0 <= r < size -> 0 <= c < size ->
            final j squared_j size (contents s) Jz r c =
            final j squared_j' size (contents t) Jz r c).
  { intros r c Hr Hc. unfold final.
    destruct (Z.eqb_spec r c) as [<- | Hne].
    - apply z_diag_ext; try assumption. apply Hjz; lia.
    - destruct (Z.ltb_spec r c).
      + apply z_upper_ext; try assumption. apply Hjz; lia.
      + apply z_upper_ext; try assumption. apply Hjz; lia. }
  eexists _, s', t'. split; [exact Hgs |]. split.
  - rewrite Hgt. rewrite (Hcell 0 0) by lia. reflexivity.
  - apply (shaped_ext size); [apply (Hs' Jz) | apply (Ht' Jz) |].
    intros r c Hr Hc.
    destruct (repr_read size s' _ r c Hs' Hr Hc) as (-> & _).
    destruct (repr_read size t' _ r c Ht' Hr Hc) as (-> & _).
    f_equal. apply Hcell; assumption.
Qed.

Lemma get_j_z_dependence_witness :
  exists v s' t',
    get half three_quarters 2 spin_half = Some (v, s') /\
    get half one 2
      (State (zero_matrix 2) (identity_matrix 2) (identity_matrix 2)
         (identity_matrix 2) (identity_matrix 2)) = Some (v, t') /\
    j_z s' = j_z t'.
Proof.
  apply (get_j_z_dependence half three_quarters one 2 spin_half);
    [ lia | well_formed_by_computation | well_formed_by_computation | reflexivity
    | intros r c Hr Hc; reflexivity ].
Defined.

(** ** The cells the call needs *)

(** Whether a cell can be read depends on the lengths of the rows alone. *)
Lemma read_is_Some m i k :
  is_Some (read m i k) <->
  0 <= i /\ 0 <= k /\
  exists l, (length <$> m) !! Z.to_nat i = Some l /\ (Z.to_nat k < l)%nat.
Proof.
  unfold read, index. split.
  - intros [v Hv].
    destruct (Z.leb_spec 0 i); [| discriminate].
    destruct (Z.leb_spec 0 k); [| discriminate]. simpl in Hv.
    destruct (m !! Z.to_nat i) as [row |] eqn:Hrow; [| discriminate]. simpl in Hv.
    split; [assumption |]. split; [assumption |].
    exists (length row). split.
    + rewrite list_lookup_fmap, Hrow. reflexivity.
    + apply lookup_lt_Some in Hv. assumption.
  - intros (Hi & Hk & l & Hl & Hlt).
    rewrite list_lookup_fmap in Hl.
    destruct (m !! Z.to_nat i) as [row |] eqn:Hrow; [| discriminate].
    simpl in Hl. injection Hl as <-.
    destruct (Z.leb_spec 0 i); [| lia]. destruct (Z.leb_spec 0 k); [| lia].
    simpl. rewrite Hrow. simpl. apply lookup_lt_is_Some. assumption.
Qed.

Lemma same_shape_read s s' a i k :
  same_shape s s' -> is_Some (read (sel a s') i k) -> is_Some (read (sel a s) i k).
Proof.
  intros H. rewrite !read_is_Some, (H a). trivial.
Qed.

Lemma write_is_Some m i k v m' : write m i k v = Some m' -> is_Some (read m i k).
Proof.
  unfold write, read. intros H.
  destruct (index i) as [ni |]; [| discriminate].
  destruct (index k) as [nk |]; [| discriminate]. simpl in *.
  destruct (m !! ni) as [row |]; [| discriminate]. simpl in *.
  destruct (row !! nk) as [x |]; [| discriminate]. eexists. reflexivity.
Qed.

Lemma write_lengths m i k v m' :
  write m i k v = Some m' -> length <$> m' = length <$> m.
Proof.
  unfold write. intros H.
  destruct (index i) as [ni |]; [| discriminate].
  destruct (index k) as [nk |]; [| discriminate]. simpl in H.
  destruct (m !! ni) as [row |] eqn:Hrow; [| discriminate]. simpl in H.
  destruct (row !! nk) as [x |]; [| discriminate]. simpl in H.
  injection H as <-.
  rewrite list_fmap_insert, length_insert.
  apply list_insert_id. rewrite list_lookup_fmap, Hrow. reflexivity.
Qed.

Lemma same_shape_refl s : same_shape s s.
Proof. intros a. reflexivity. Qed.

Lemma same_shape_trans s t u : same_shape s t -> same_shape t u -> same_shape s u.
Proof. intros H1 H2 a. rewrite (H1 a). apply H2. Qed.

Lemma keeps_shape_ret {A} (a : A) : keeps_shape (ret a).
Proof. intros s b s' H. injection H as _ <-. apply same_shape_refl. Qed.

Lemma keeps_shape_bind {A B} (m : Cmd A) (f : A -> Cmd B) :
  keeps_shape m -> (forall a, keeps_shape (f a)) -> keeps_shape (bind m f).
Proof.
  intros Hm Hf s b s' H. unfold bind in H.
  destruct (m s) as [[a s1] |] eqn:E; [| discriminate].
  eapply same_shape_trans; [eapply Hm; eassumption | eapply Hf; eassumption].
Qed.

Lemma keeps_shape_load a i k : keeps_shape (load a i k).
Proof.
  intros s b s' H. unfold load in H.
  destruct (read (sel a s) i k); [| discriminate].
  injection H as _ <-. apply same_shape_refl.
Qed.

Lemma keeps_shape_store a i k v : keeps_shape (store a i k v).
Proof.
  intros s b s' H. unfold store in H.
  destruct (write (sel a s) i k v) as [m |] eqn:E; [| discriminate].
  injection H as _ <-. apply write_lengths in E.
  intros b'. destruct a, b'; simpl in *; rewrite ?E; reflexivity.
Qed.

Lemma keeps_shape_for_loop body n :
  (forall i, keeps_shape (body i)) -> forall lo, keeps_shape (for_loop n lo body).
Proof.
  intros Hbody. induction n as [| n IH]; intros lo; simpl.
  - apply keeps_shape_ret.
  - apply keeps_shape_bind; [apply Hbody | intros _; apply IH].
Qed.

Lemma keeps_shape_for lo hi body :
  (forall i, keeps_shape (body i)) -> keeps_shape (for_ lo hi body).
Proof. intros H. apply keeps_shape_for_loop. assumption. Qed.

Ltac keeps_shape :=
  repeat first
    [ apply keeps_shape_ret
    | apply keeps_shape_load
    | apply keeps_shape_store
    | apply keeps_shape_bind; [| intros ?]
    | apply keeps_shape_for; intros ? ].

Lemma keeps_shape_diagonal_step j squared_j row row_j :
  keeps_shape (diagonal_step j squared_j row row_j).
Proof. unfold diagonal_step, add_double. keeps_shape. Qed.

Lemma keeps_shape_pair_step j squared_j row column row_j :
  keeps_shape (pair_step j squared_j row column row_j).
Proof. unfold pair_step, add_float. keeps_shape. Qed.

Lemma keeps_shape_pair_body j squared_j size row column :
  keeps_shape (pair_body j squared_j size row column).
Proof.
  unfold pair_body, add_float. keeps_shape.
Qed.

Lemma keeps_shape_row_body j squared_j size row :
  keeps_shape (row_body j squared_j size row).
Proof.
  unfold row_body, add_double. keeps_shape.
Qed.

(** A cell needed by a step of a sequence is needed by the sequence. *)
Lemma needs_load a i k : needs (load a i k) a i k.
Proof.
  intros s r H. unfold load in H.
  destruct (read (sel a s) i k) as [v |]; [eexists; reflexivity | discriminate].
Qed.

Lemma needs_store a i k v : needs (store a i k v) a i k.
Proof.
  intros s r H. unfold store in H.
  destruct (write (sel a s) i k v) as [m |] eqn:E; [| discriminate].
  eapply write_is_Some. eassumption.
Qed.

Lemma needs_first {A B} (m : Cmd A) (f : A -> Cmd B) a i k :
  needs m a i k -> needs (bind m f) a i k.
Proof.
  intros Hm s r H. unfold bind in H.
  destruct (m s) as [[x s1] |] eqn:E; [| discriminate].
  eapply Hm. eassumption.
Qed.

Lemma needs_later {A B} (m : Cmd A) (f : A -> Cmd B) a i k :
  keeps_shape m -> (forall x, needs (f x) a i k) -> needs (bind m f) a i k.
Proof.
  intros Hm Hf s r H. unfold bind in H.
  destruct (m s) as [[x s1] |] eqn:E; [| discriminate].
  eapply same_shape_read; [eapply Hm; eassumption | eapply Hf; eassumption].
Qed.

Lemma needs_for_loop body a i k :
  (forall y, keeps_shape (body y)) ->
  forall n lo x, lo <= x < lo + Z.of_nat n ->
    needs (body x) a i k -> needs (for_loop n lo body) a i k.
Proof.
  intros Hbody. induction n as [| n IH]; intros lo x Hx Hn; [lia |]. simpl.
  destruct (Z.eq_dec x lo) as [-> | Hne].
  - apply needs_first. assumption.
  - apply needs_later; [apply Hbody |]. intros _. apply (IH (lo + 1) x); [lia | assumption].
Qed.

Lemma needs_for lo hi body x a i k :
  (forall y, keeps_shape (body y)) -> lo <= x < hi ->
  needs (body x) a i k -> needs (for_ lo hi body) a i k.
Proof.
  intros Hbody Hx Hn. unfold for_. apply (needs_for_loop body a i k Hbody _ lo x); [lia | assumption].
Qed.

(** Looks for the access in a sequence of loads and stores. *)
Ltac needs_search :=
  first
    [ apply needs_load
    | apply needs_store
    | apply needs_first; needs_search
    | apply needs_later; [solve [keeps_shape] | intros ?; needs_search] ].

Section Needs.

Variables (j squared_j : float) (size : Z).

Lemma needs_diagonal_step row row_j :
  needs (diagonal_step j squared_j row row_j) Ef row_j row.
Proof. unfold diagonal_step. needs_search. Qed.

Lemma needs_pair_body_upper a row column :
  a = Jz \/ a = Jplus \/ a = Jminus \/ a = Tp ->
  needs (pair_body j squared_j size row column) a row column.
Proof.
  intros Ha. unfold pair_body, add_float.
  apply needs_later; [keeps_shape |]. intros e0.
  apply needs_later; [keeps_shape |]. intros e1.
  destruct Ha as [-> | Ha].
  { needs_search. }
  apply needs_later; [keeps_shape |]. intros _.
  apply needs_later; [keeps_shape |]. intros _.
  destruct Ha as [-> | [-> | ->]]; needs_search.
Qed.

Lemma needs_pair_body_lower a row column :
  a = Jz \/ a = Jplus \/ a = Jminus \/ a = Tp ->
  needs (pair_body j squared_j size row column) a column row.
Proof.
  intros Ha. unfold pair_body, add_float.
  apply needs_later; [keeps_shape |]. intros e0.
  apply needs_later; [keeps_shape |]. intros e1.
  apply needs_later; [keeps_shape |]. intros _.
  apply needs_later; [keeps_shape |]. intros _.
  destruct Ha as [-> | [-> | [-> | ->]]]; needs_search.
Qed.

Lemma needs_row_body_last row : needs (row_body j squared_j size row) Ef (size - 1) row.
Proof. unfold row_body. needs_search. Qed.

Lemma needs_row_body_basis row i :
  0 <= i < size - 1 -> needs (row_body j squared_j size row) Ef i row.
Proof.
  intros Hi. unfold row_body, add_double.
  apply needs_later; [keeps_shape |]. intros e0.
  apply needs_later; [keeps_shape |]. intros _.
  apply needs_first.
  apply (needs_for _ _ _ i); [intros y; apply keeps_shape_diagonal_step | lia |].
  apply needs_diagonal_step.
Qed.

Lemma needs_row_body_diagonal a row :
  a = Jz \/ a = Jplus \/ a = Jminus ->
  needs (row_body j squared_j size row) a row row.
Proof.
  intros Ha. unfold row_body, add_double.
  apply needs_later; [keeps_shape |]. intros e0.
  destruct Ha as [-> | Ha].
  { needs_search. }
  apply needs_later; [keeps_shape |]. intros _.
  apply needs_later; [keeps_shape |]. intros _.
  destruct Ha as [-> | ->]; needs_search.
Qed.

Lemma needs_row_body_pair a row column (upper : bool) :
  a = Jz \/ a = Jplus \/ a = Jminus \/ a = Tp ->
  row < column < size ->
  needs (row_body j squared_j size row) a
    (if upper then row else column) (if upper then column else row).
Proof.
  intros Ha Hc. unfold row_body, add_double.
  apply needs_later; [keeps_shape |]. intros e0.
  apply needs_later; [keeps_shape |]. intros _.
  apply needs_later; [keeps_shape |]. intros _.
  apply needs_later; [keeps_shape |]. intros p.
  apply needs_later; [keeps_shape |]. intros _.
  apply (needs_for _ _ _ column); [intros y; apply keeps_shape_pair_body | lia |].
  destruct upper; [apply needs_pair_body_upper | apply needs_pair_body_lower]; assumption.
Qed.

Lemma needs_get_row a i k row :
  0 <= row < size -> needs (row_body j squared_j size row) a i k ->
  needs (get j squared_j size) a i k.
Proof.
  intros Hrow H. unfold get. apply needs_first.
  apply (needs_for _ _ _ row); [intros y; apply keeps_shape_row_body | lia | assumption].
Qed.

Lemma needs_get_top_left a :
  a <> Ef -> needs (get j squared_j size) a 0 0.
Proof.
  intros Ha. unfold get.
  apply needs_later; [keeps_shape |]. intros _.
  destruct a; [| | | | congruence]; needs_search.
Qed.

End Needs.

(** X5. The call returns only if the storage is there: whenever it returns,
    every cell [(i, k)] with [0 <= i, k < size] of [eigenfunctions], [j_z],
    [j_plus] and [j_minus] is allocated, and so is every such off-diagonal
    cell of [transition_probability]; of the diagonal of
    [transition_probability] only the top-left cell is needed.  A matrix
    with a missing cell among these makes the call undefined. *)
Theorem get_needs_cells j squared_j size s r :
  get j squared_j size s = Some r ->
  is_Some (read (transition_probability s) 0 0) /\
  forall i k, 0 <= i < size -> 0 <= k < size ->
    is_Some (read (eigenfunctions s) i k) /\
    is_Some (read (j_z s) i k) /\
    is_Some (read (j_plus s) i k) /\
    is_Some (read (j_minus s) i k) /\
    (i <> k -> is_Some (read (transition_probability s) i k)).
Proof.
  intros H. split.
  { apply (needs_get_top_left j squared_j size Tp ltac:(discriminate) s r H). }
  intros i k Hi Hk.
  assert (Hout : forall a, a = Jz \/ a = Jplus \/ a = Jminus \/ a = Tp ->
            (a = Tp -> i <> k) -> is_Some (read (sel a s) i k)).
  { intros a Ha Hd.
    destruct (Z.lt_trichotomy i k) as [Hlt | [-> | Hgt]].
    - apply (needs_get_row j squared_j size a i k i Hi
               (needs_row_body_pair j squared_j size a i k true Ha ltac:(lia)) s r H).
    - assert (Ha' : a = Jz \/ a = Jplus \/ a = Jminus).
      { destruct Ha as [? | [? | [? | ->]]]; auto. exfalso. apply Hd; reflexivity. }
      apply (needs_get_row j squared_j size a k k k Hk
               (needs_row_body_diagonal j squared_j size a k Ha') s r H).
    - apply (needs_get_row j squared_j size a i k k Hk
               (needs_row_body_pair j squared_j size a k i false Ha ltac:(lia)) s r H). }
  split.
  { destruct (Z.eq_dec i (size - 1)) as [-> | Hne].
    - apply (needs_get_row j squared_j size Ef (size - 1) k k Hk
               (needs_row_body_last j squared_j size k) s r H).
    - apply (needs_get_row j squared_j size Ef i k k Hk
               (needs_row_body_basis j squared_j size k i ltac:(lia)) s r H). }
  split; [apply (Hout Jz); [auto | discriminate] |].
  split; [apply (Hout Jplus); [auto | discriminate] |].
  split; [apply (Hout Jminus); [auto | discriminate] |].
  intros Hne. apply (Hout Tp); auto.
Qed.

Lemma get_needs_cells_witness :
  is_Some (read (transition_probability spin_half) 0 0) /\
  forall i k, 0 <= i < 2 -> 0 <= k < 2 ->
    is_Some (read (eigenfunctions spin_half) i k) /\
    is_Some (read (j_z spin_half) i k) /\
    is_Some (read (j_plus spin_half) i k) /\
    is_Some (read (j_minus spin_half) i k) /\
    (i <> k -> is_Some (read (transition_probability spin_half) i k)).
Proof.
  apply (get_needs_cells half three_quarters 2 spin_half
           (S754_finite true 8388608 (-24),
            State [[S754_finite true 8388608 (-24); zero]; [zero; half]]
              [[zero; zero]; [one; zero]] [[zero; one]; [zero; zero]]
              [[zero; third]; [third; zero]] (identity_matrix 2))).
  vm_compute. reflexivity.
Defined.

(** ** The ladder operators in the identity eigenbasis *)

Lemma fmul_one x : valid_binary 24 128 x = true -> fmul one x = x.
Proof.
  destruct x as [s | s | | s m e]; try reflexivity.
  intros Hv.
  destruct (valid_finite_inv 24 128 s m e ltac:(lia) Hv) as (Hc & Hb & Hd & He).
  unfold emin in He.
  set (d := Zdigits2 (Z.pos m)) in *.
  assert (Hd0 : 0 < d) by (apply Zdigits2_pos; lia).
  destruct (Zdigits2_bounds (Z.pos m) ltac:(lia)) as [Hl Hu]. fold d in Hl, Hu.
  assert (Hm : Z.pos m < 2 ^ 24).
  { apply Z.lt_le_trans with (2 ^ d); [lia |]. apply Z.pow_le_mono_r; lia. }
  unfold fmul, one. cbn [SFmul xorb].
  destruct (binary_round_aux_cases 24 128 s (8388608 * m) (-23 + e)
              ltac:(lia) ltac:(lia)) as (m' & H0 & Hq & Hhalf & Hle & _ & ->).
  { rewrite Pos2Z.inj_mul.
    change (Z.pos 8388608) with (2 ^ 23).
    rewrite Z.mul_comm, Zdigits2_mul_pow2 by lia. fold d.
    replace (d + 23 + (-23 + e)) with (d + e) by lia. lia. }
  rewrite Pos2Z.inj_mul in *.
  change (Z.pos 8388608) with (2 ^ 23) in *.
  rewrite (Z.mul_comm (2 ^ 23)) in *.
  rewrite Zdigits2_mul_pow2 in * by lia. fold d in Hq, Hhalf |- *.
  replace (d + 23 + (-23 + e)) with (d + e) in * by lia.
  rewrite Hc in *.
  replace (e - (-23 + e)) with 23 in * by lia.
  rewrite Z.div_mul in Hq by lia.
  assert (Em : m' = Z.pos m) by lia. rewrite Em.
  destruct (Z.eqb_spec (Z.pos m) 0); [lia |].
  destruct (Z.ltb_spec (Z.pos m) (2 ^ 24)); [| lia].
  destruct (Z.leb_spec e (128 - 24)); [reflexivity | lia].
Qed.

Lemma to_float_valid x : valid_binary 24 128 (to_float x) = true.
Proof.
  destruct x as [s | s | | s m e]; try reflexivity.
  apply binary_round_valid; lia.
Qed.

Lemma fadd_zero_good x : good x -> fadd zero x = x.
Proof.
  intros (_ & Hf & Hnz).
  destruct x as [[|] | s | | s m e]; try discriminate; try congruence; reflexivity.
Qed.

Lemma fadd_good_zero x t : good x -> is_zero t = true -> fadd x t = x.
Proof.
  intros (_ & Hf & Hnz) Ht.
  destruct t as [st | | |]; try discriminate.
  destruct x as [[|] | s | | s m e]; try discriminate; try congruence.
  - destruct st; reflexivity.
  - reflexivity.
Qed.

(** A sum whose terms are zero except the one of index [i0]. *)
Lemma accumulate_single term n i0 v :
  0 <= i0 -> good v ->
  (forall i, 0 <= i < Z.of_nat n ->
     if i =? i0 then term i = v else is_zero (term i) = true) ->
  accumulate fadd term n zero = if i0 <? Z.of_nat n then v else zero.
Proof.
  intros Hi0 Hv. induction n as [| n IH]; intros H.
  - cbn [accumulate]. destruct (Z.ltb_spec i0 (Z.of_nat 0)); [lia | reflexivity].
  - cbn [accumulate]. rewrite IH by (intros i Hi; apply H; lia).
    pose proof (H (Z.of_nat n) ltac:(lia)) as Hn.
    destruct (Z.eqb_spec (Z.of_nat n) i0) as [E | E].
    + rewrite Hn.
      destruct (Z.ltb_spec i0 (Z.of_nat n)); [lia |].
      destruct (Z.ltb_spec i0 (Z.of_nat (S n))); [| lia].
      apply fadd_zero_good. exact Hv.
    + destruct (Z.ltb_spec i0 (Z.of_nat n)); destruct (Z.ltb_spec i0 (Z.of_nat (S n)));
        try lia.
      * apply fadd_good_zero; assumption.
      * apply fadd_zero_zero. exact Hn.
Qed.

Section Ladder.

Variables (j squared_j : float) (size : Z) (g : grid).

Hypothesis Hsize : 1 <= size <= 2147483647.
Hypothesis Hvalid : valid_binary prec32 emax32 j = true.
Hypothesis Hfinite : is_finite j = true.
Hypothesis Hzero : zeroed size g.
Hypothesis Hid : forall i k, 0 <= i < size -> 0 <= k < size ->
  g Ef i k = if i =? k then one else zero.
Hypothesis Hroot : forall i, 0 <= i < size - 1 -> defined (root j squared_j i).

Lemma root_good i : 0 <= i < size - 1 -> good (root j squared_j i).
Proof using Hroot.
  intros Hi. destruct (Hroot i Hi) as [Hf Hnz].
  split; [apply to_float_valid |]. split; assumption.
Qed.

Lemma fmul_zero_root i :
  0 <= i < size - 1 -> is_zero (fmul zero (root j squared_j i)) = true.
Proof using Hroot.
  intros Hi. apply fmul_zero_good. apply root_good. exact Hi.
Qed.

(** The raising term: [i] is the state below [r] and the state [c]. *)
Lemma p_term_identity r c i :
  0 <= r < size -> 0 <= c < size -> 0 <= i < size - 1 ->
  if (i + 1 =? r) && (i =? c) then p_term j squared_j g r c i = root j squared_j i
  else is_zero (p_term j squared_j g r c i) = true.
Proof using Hid Hroot.
  intros Hr Hc Hi. unfold p_term. rewrite !Hid by lia.
  destruct (i + 1 =? r); destruct (i =? c); cbn [andb];
    [ change (fmul one one) with one; apply fmul_one; apply root_good; exact Hi
    | change (fmul one zero) with zero
    | change (fmul zero one) with zero
    | change (fmul zero zero) with zero ]; apply fmul_zero_root; exact Hi.
Qed.

Lemma m_term_identity r c i :
  0 <= r < size -> 0 <= c < size -> 0 <= i < size - 1 ->
  if (i =? r) && (i + 1 =? c) then m_term j squared_j g r c i = root j squared_j i
  else is_zero (m_term j squared_j g r c i) = true.
Proof using Hid Hroot.
  intros Hr Hc Hi. unfold m_term. rewrite !Hid by lia.
  destruct (i =? r); destruct (i + 1 =? c); cbn [andb];
    [ change (fmul one one) with one; apply fmul_one; apply root_good; exact Hi
    | change (fmul one zero) with zero
    | change (fmul zero one) with zero
    | change (fmul zero zero) with zero ]; apply fmul_zero_root; exact Hi.
Qed.

Lemma p_upper_identity r c :
  0 <= r < c -> c < size -> p_upper j squared_j size g r c = zero.
Proof using Hsize Hzero Hid Hroot.
  intros Hr Hc. unfold p_upper, p_upto.
  rewrite Hzero by (try discriminate; lia).
  apply accumulate_zeros. intros i Hi.
  pose proof (p_term_identity r c i ltac:(lia) ltac:(lia) ltac:(lia)) as H.
  destruct (Z.eqb_spec (i + 1) r); destruct (Z.eqb_spec i c); try lia; exact H.
Qed.

Lemma m_upper_identity r c :
  0 <= r < c -> c < size ->
  m_upper j squared_j size g r c = if c =? r + 1 then root j squared_j r else zero.
Proof using Hsize Hzero Hid Hroot.
  intros Hr Hc. unfold m_upper, m_upto.
  rewrite Hzero by (try discriminate; lia).
  destruct (Z.eqb_spec c (r + 1)) as [E | E].
  - rewrite (accumulate_single _ _ r (root j squared_j r)).
    + destruct (Z.ltb_spec r (Z.of_nat (Z.to_nat (size - 1)))); [reflexivity | lia].
    + lia.
    + apply root_good. lia.
    + intros i Hi.
      pose proof (m_term_identity r c i ltac:(lia) ltac:(lia) ltac:(lia)) as H.
      destruct (Z.eqb_spec i r) as [-> | Hir].
      * destruct (Z.eqb_spec (r + 1) c); [exact H | lia].
      * exact H.
  - apply accumulate_zeros. intros i Hi.
    pose proof (m_term_identity r c i ltac:(lia) ltac:(lia) ltac:(lia)) as H.
    destruct (Z.eqb_spec i r); destruct (Z.eqb_spec (i + 1) c); try lia; exact H.
Qed.

Lemma final_ladder r c :
  0 <= r < size -> 0 <= c < size -> r <> c ->
  final j squared_j size g Jplus r c =
    (if r =? c + 1 then root j squared_j c else zero) /\
  final j squared_j size g Jminus r c =
    (if c =? r + 1 then root j squared_j r else zero) /\
  final j squared_j size g Tp r c =
    (if Z.abs (r - c) =? 1
     then probability zero zero (root j squared_j (Z.min r c)) else zero).
Proof using Hsize Hvalid Hfinite Hzero Hid Hroot.
  intros Hr Hc Hne. unfold final, t_upper.
  destruct (Z.eqb_spec r c); [contradiction |].
  destruct (Z.ltb_spec r c) as [Hlt | Hge].
  - rewrite (z_upper_identity j size g Hsize Hvalid Hfinite Hzero Hid) by lia.
    rewrite p_upper_identity, m_upper_identity by lia.
    destruct (Z.eqb_spec r (c + 1)); [lia |].
    replace (Z.min r c) with r by lia.
    split; [reflexivity |]. split; [reflexivity |].
    destruct (Z.eqb_spec c (r + 1)); destruct (Z.eqb_spec (Z.abs (r - c)) 1);
      try lia; reflexivity.
  - rewrite (z_upper_identity j size g Hsize Hvalid Hfinite Hzero Hid) by lia.
    rewrite p_upper_identity, m_upper_identity by lia.
    destruct (Z.eqb_spec c (r + 1)); [lia |].
    replace (Z.min r c) with c by lia.
    split; [reflexivity |]. split; [reflexivity |].
    destruct (Z.eqb_spec r (c + 1)); destruct (Z.eqb_spec (Z.abs (r - c)) 1);
      try lia; reflexivity.
Qed.

End Ladder.

(** X6. With the identity matrix for [eigenfunctions] and zero-initialized
    outputs the two ladder matrices have one off-diagonal line each, and the
    transitions obey the selection rule: off the diagonal, [j_plus[r][c]] is
    the root [sqrt(squared_j - (c - j) * (c + 1 - j))] of the state [c] if
    [r = c + 1] and zero otherwise, [j_minus[r][c]] is the root of the state
    [r] if [c = r + 1] and zero otherwise, and
    [transition_probability[r][c]] is a third of the squared root of the
    lower of the two states if they are neighbours and zero otherwise.  The
    roots are the ones the code forms in [float]; each is supposed to be a
    number (the radicand is not negative) and not the negative zero. *)
Theorem get_identity_ladder j squared_j size s :
  1 <= size <= 2147483647 ->
  real j ->
  (forall i, 0 <= i < size - 1 -> defined (root j squared_j i)) ->
  eigenfunctions s = identity_matrix size ->
  j_z s = zero_matrix size -> j_plus s = zero_matrix size ->
  j_minus s = zero_matrix size -> transition_probability s = zero_matrix size ->
  exists v s',
    get j squared_j size s = Some (v, s') /\
    forall r c, 0 <= r < size -> 0 <= c < size -> r <> c ->
      read (j_plus s') r c =
        Some (if r =? c + 1 then root j squared_j c else zero) /\
      read (j_minus s') r c =
        Some (if c =? r + 1 then root j squared_j r else zero) /\
      read (transition_probability s') r c =
        Some (if Z.abs (r - c) =? 1
              then probability zero zero (root j squared_j (Z.min r c))
              else zero).
Proof.
  intros Hsize [Hv Hf] Hroot He Hz Hp Hm Ht.
  assert (Hwf : well_formed size s).
  { intros a. destruct a; simpl; rewrite ?He, ?Hz, ?Hp, ?Hm, ?Ht;
      (apply shaped_zero_matrix || apply shaped_identity_matrix). }
  destruct (get_final j squared_j size s ltac:(lia) Hwf) as (s' & Hget & Hs').
  eexists _, s'. split; [exact Hget |].
  intros r c Hr Hc Hne.
  destruct (repr_read size s' _ r c Hs' Hr Hc) as (_ & -> & -> & -> & _).
  assert (Hzero : zeroed size (contents s)) by (apply zeroed_contents; assumption).
  assert (Hid : forall i k, 0 <= i < size -> 0 <= k < size ->
            contents s Ef i k = if i =? k then one else zero).
  { intros i k Hi Hk. unfold contents. simpl. rewrite He.
    rewrite read_identity_matrix by assumption. reflexivity. }
  destruct (final_ladder j squared_j size (contents s) Hsize Hv Hf Hzero Hid Hroot
              r c Hr Hc Hne) as (-> & -> & ->).
  repeat split; reflexivity.
Qed.

Lemma get_identity_ladder_witness :
  exists v s',
    get one two 3 spin_one = Some (v, s') /\
    forall r c, 0 <= r < 3 -> 0 <= c < 3 -> r <> c ->
      read (j_plus s') r c = Some (if r =? c + 1 then root one two c else zero) /\
      read (j_minus s') r c = Some (if c =? r + 1 then root one two r else zero) /\
      read (transition_probability s') r c =
        Some (if Z.abs (r - c) =? 1
              then probability zero zero (root one two (Z.min r c))
              else zero).
Proof.
  apply (get_identity_ladder one two 3 spin_one);
    [ lia | split; reflexivity | | reflexivity .. ].
  intros i Hi. assert (Hi' : i = 0 \/ i = 1) by lia.
  destruct Hi' as [-> | ->]; (split; [vm_compute; reflexivity | vm_compute; discriminate]).
Defined.

(** ** One formula for both triangles *)

Lemma SFmul_comm prec emax x y : SFmul prec emax x y = SFmul prec emax y x.
Proof.
  destruct x as [sx | sx | | sx mx ex], y as [sy | sy | | sy my ey]; simpl;
    rewrite ?(xorb_comm sx sy); try reflexivity.
  rewrite (Pos.mul_comm mx my), (Z.add_comm ex ey). reflexivity.
Qed.

Lemma z_term_comm j g r c i : z_term j g c r i = z_term j g r c i.
Proof. unfold z_term, fmul. rewrite (SFmul_comm _ _ (g Ef i c)). reflexivity. Qed.

Lemma m_term_p_term j squared_j g r c i :
  m_term j squared_j g c r i = p_term j squared_j g r c i.
Proof.
  unfold m_term, p_term, fmul. rewrite (SFmul_comm _ _ (g Ef i c)). reflexivity.
Qed.

(** X7. The cells below the diagonal, which the code fills by mirroring,
    hold what the formula of the cells above the diagonal gives when it is
    applied to them: with zero-initialized [j_z], [j_plus] and [j_minus],
    every off-diagonal cell [(r, c)], on either side of the diagonal, holds
    the [float] sum over the basis states [i], in the order of the loop, of
    [e[i][r] * e[i][c] * (i - j)] (the state [size - 1] first) in [j_z], of
    [e[i+1][r] * e[i][c] * root i] in [j_plus] and of
    [e[i][r] * e[i+1][c] * root i] in [j_minus]. *)
Theorem get_one_formula j squared_j size s :
  1 <= size -> well_formed size s ->
  j_z s = zero_matrix size -> j_plus s = zero_matrix size ->
  j_minus s = zero_matrix size ->
  let g := contents s in
  let n := Z.to_nat (size - 1) in
  exists v s',
    get j squared_j size s = Some (v, s') /\
    forall r c, 0 <= r < size -> 0 <= c < size -> r <> c ->
      read (j_z s') r c =
        Some (accumulate fadd (z_term j g r c) n
                (fadd zero (z_term j g r c (size - 1)))) /\
      read (j_plus s') r c =
        Some (accumulate fadd (p_term j squared_j g r c) n zero) /\
      read (j_minus s') r c =
        Some (accumulate fadd (m_term j squared_j g r c) n zero).
Proof.
  intros Hsize Hwf Hz Hp Hm g n.
  destruct (get_final j squared_j size s Hsize Hwf) as (s' & Hget & Hs').
  eexists _, s'. split; [exact Hget |].
  intros r c Hr Hc Hne.
  assert (H0 : forall a i k, a = Jz \/ a = Jplus \/ a = Jminus ->
            0 <= i < size -> 0 <= k < size -> g a i k = zero).
  { intros a i k Ha Hi Hk. unfold g, contents.
    destruct Ha as [-> | [-> | ->]]; simpl; rewrite ?Hz, ?Hp, ?Hm, read_zero_matrix
      by assumption; reflexivity. }
  destruct (repr_read size s' _ r c Hs' Hr Hc) as (-> & -> & -> & _).
  unfold final. fold g.
  destruct (Z.eqb_spec r c); [contradiction |].
  unfold z_upper, p_upper, m_upper, z_upto, p_upto, m_upto. fold n.
  destruct (Z.ltb_spec r c).
  - rewrite !H0 by auto. repeat split; reflexivity.
  - rewrite !H0 by auto.
    rewrite (z_term_comm j g r c (size - 1)).
    rewrite (accumulate_ext fadd (z_term j g c r) (z_term j g r c))
      by (intros i; apply z_term_comm).
    rewrite (accumulate_ext fadd (m_term j squared_j g c r) (p_term j squared_j g r c))
      by (intros i; apply m_term_p_term).
    rewrite (accumulate_ext fadd (p_term j squared_j g c r) (m_term j squared_j g r c))
      by (intros i; symmetry; apply m_term_p_term).
    repeat split; reflexivity.
Qed.

Lemma get_one_formula_witness :
  let g := contents spin_one in
  exists v s',
    get one two 3 spin_one = Some (v, s') /\
    forall r c, 0 <= r < 3 -> 0 <= c < 3 -> r <> c ->
      read (j_z s') r c =
        Some (accumulate fadd (z_term one g r c) 2 (fadd zero (z_term one g r c 2))) /\
      read (j_plus s') r c = Some (accumulate fadd (p_term one two g r c) 2 zero) /\
      read (j_minus s') r c = Some (accumulate fadd (m_term one two g r c) 2 zero).
Proof.
  apply (get_one_formula one two 3 spin_one);
    [lia | well_formed_by_computation | reflexivity ..].
Defined.

(** ** The cells the call leaves alone *)

Lemma read_negative m i k : i < 0 \/ k < 0 -> read m i k = None.
Proof.
  intros H. unfold read, index.
  destruct (Z.leb_spec 0 i); [| reflexivity].
  destruct (Z.leb_spec 0 k); [lia | reflexivity].
Qed.

Lemma writes_within_ret {A} n (a : A) : writes_within n (ret a).
Proof. intros s b s' H. injection H as _ <-. reflexivity. Qed.

Lemma writes_within_bind {A B} n (m : Cmd A) (f : A -> Cmd B) :
  writes_within n m -> (forall a, writes_within n (f a)) -> writes_within n (bind m f).
Proof.
  intros Hm Hf s b s' H c i k Hout. unfold bind in H.
  destruct (m s) as [[a s1] |] eqn:E; [| discriminate].
  rewrite (Hf a s1 b s' H c i k Hout). apply (Hm s a s1 E c i k Hout).
Qed.

Lemma writes_within_load n a i k : writes_within n (load a i k).
Proof.
  intros s b s' H. unfold load in H.
  destruct (read (sel a s) i k); [| discriminate].
  injection H as _ <-. reflexivity.
Qed.

Lemma writes_within_store n a i k v :
  0 <= i < n -> 0 <= k < n -> writes_within n (store a i k v).
Proof.
  intros Hi Hk s b s' H c i' k' Hout. unfold store in H.
  destruct (write (sel a s) i k v) as [m |] eqn:E; [| discriminate].
  injection H as _ <-.
  destruct (name_eqb_spec a c) as [<- | Hne].
  - rewrite sel_upd_same.
    destruct (Z.lt_ge_cases i' 0) as [Hn | Hi'];
      [rewrite !read_negative by lia; reflexivity |].
    destruct (Z.lt_ge_cases k' 0) as [Hn | Hk'];
      [rewrite !read_negative by lia; reflexivity |].
    apply (read_write_other _ i k v); try assumption.
    intros Heq. injection Heq as -> ->. apply Hout. split; assumption.
  - rewrite sel_upd_other by assumption. reflexivity.
Qed.

Lemma writes_within_for_loop n body count :
  forall lo, (forall x, lo <= x < lo + Z.of_nat count -> writes_within n (body x)) ->
    writes_within n (for_loop count lo body).
Proof.
  induction count as [| count IH]; intros lo Hbody; simpl.
  - apply writes_within_ret.
  - apply writes_within_bind; [apply Hbody; lia |].
    intros _. apply IH. intros x Hx. apply Hbody. lia.
Qed.

Lemma writes_within_for n lo hi body :
  (forall x, lo <= x < hi -> writes_within n (body x)) ->
  writes_within n (for_ lo hi body).
Proof.
  intros Hbody. apply writes_within_for_loop. intros x Hx. apply Hbody. lia.
Qed.

Ltac writes_within :=
  repeat first
    [ apply writes_within_ret
    | apply writes_within_load
    | apply writes_within_store; lia
    | apply writes_within_bind; [| intros ?]
    | apply writes_within_for; intros ? ? ].

Lemma writes_within_get j squared_j size : writes_within size (get j squared_j size).
Proof.
  unfold get, row_body, pair_body, diagonal_step, pair_step, add_double, add_float.
  writes_within.
Qed.

(** X8. The call works on the leading [size] by [size] block of the
    matrices alone.  When it is given larger storage, every cell outside
    that block holds on return what it held on entry, in each of the five
    matrices, and no row has changed its length. *)
Theorem get_writes_within j squared_j size s v s' :
  get j squared_j size s = Some (v, s') ->
  same_shape s s' /\
  forall a i k, ~ (0 <= i < size /\ 0 <= k < size) ->
    read (sel a s') i k = read (sel a s) i k.
Proof.
  intros H. split.
  - assert (Hk : keeps_shape (get j squared_j size)).
    { unfold get. keeps_shape. }
    apply (Hk s v s' H).
  - apply (writes_within_get j squared_j size s v s' H).
Qed.

Lemma get_writes_within_witness :
  exists v s',
    get half three_quarters 2 roomy = Some (v, s') /\
    same_shape roomy s' /\
    forall a i k, ~ (0 <= i < 2 /\ 0 <= k < 2) ->
      read (sel a s') i k = read (sel a roomy) i k.
Proof.
  eexists _, _. split; [vm_compute; reflexivity |].
  eapply (get_writes_within half three_quarters 2 roomy). vm_compute. reflexivity.
Defined.
